(** * Function expansion and builder-time inlining (onnx/defs/function.cc)
    and the axes adapter (onnx/version_converter/adapters/axes_input_to_attribute.h)

    A shallow embedding of [FunctionExpandHelper], [FunctionBuilder::AddInlinedCall]
    and [AxesInputToAttribute::adapt], with the properties of the expansion
    engine stated and proved over it. *)

From Stdlib Require Import ZArith.
From stdpp Require Import base option strings list gmap stringmap.

Local Open Scope Z_scope.
Local Open Scope string_scope.
Local Open Scope list_scope.

(** ** Data model

    The protocol-buffer messages are records; a [repeated] field is a list, a
    proto2 optional field whose presence the code tests ([has_name],
    [has_ref_attr_name]) is an [option]. *)

Module TensorProto.
Record t := mk {
  name : string;
  dims : list Z;
  int64_data : list Z;
  raw_data : string }.
End TensorProto.

Module AttributeProto.
Inductive AttributeType := UNDEFINED | FLOAT | INT | STRING | TENSOR | INTS | STRINGS.

Record t := mk {
  name : string;
  ref_attr_name : option string;
  doc_string : string;
  type : AttributeType;
  i : Z;
  s : string;
  tensor : option TensorProto.t;
  ints : list Z;
  strings : list string }.

Definition has_ref_attr_name (a : t) : bool :=
  match ref_attr_name a with Some _ => true | None => false end.

(** [a.set_name(n)] *)
Definition set_name (n : string) (a : t) : t :=
  mk n (ref_attr_name a) (doc_string a) (type a) (i a) (s a) (tensor a)
     (ints a) (strings a).

(** The default instance, what a default-constructed message holds. *)
Definition default : t := mk "" None "" UNDEFINED 0 "" None [] [].
End AttributeProto.

Module NodeProto.
Record t := mk {
  input : list string;
  output : list string;
  name : option string;
  op_type : string;
  domain : string;
  attribute : list AttributeProto.t;
  doc_string : string }.

Definition has_name (n : t) : bool :=
  match name n with Some _ => true | None => false end.
End NodeProto.

Module OperatorSetIdProto.
Record t := mk { domain : string; version : Z }.
End OperatorSetIdProto.

Module FunctionProto.
Record t := mk {
  name : string;
  input : list string;
  output : list string;
  attribute : list string;
  node : list NodeProto.t;
  opset_import : list OperatorSetIdProto.t;
  domain : string }.

(** [*f.add_node() = n] *)
Definition add_node (n : NodeProto.t) (f : t) : t :=
  mk (name f) (input f) (output f) (attribute f) (node f ++ [n])
     (opset_import f) (domain f).
End FunctionProto.

Module ValueInfoProto.
Record t := mk { name : string }.
End ValueInfoProto.

Module GraphProto.
Record t := mk {
  node : list NodeProto.t;
  name : string;
  initializer : list TensorProto.t;
  input : list ValueInfoProto.t;
  output : list ValueInfoProto.t }.

(** [*g.add_node() = n] *)
Definition add_node (n : NodeProto.t) (g : t) : t :=
  mk (node g ++ [n]) (name g) (initializer g) (input g) (output g).
End GraphProto.

(** The operator schema is declared in onnx/defs/schema.h; the expansion reads
    only [attributes()], a [std::map] from attribute name to a record holding
    the default value. *)
Module OpSchema.
Record Attribute := mkAttribute {
  attr_name : string;
  required : bool;
  default_value : AttributeProto.t }.

Record t := mk { attributes : gmap string Attribute }.
End OpSchema.

(** [OpSchemaRegistry::GetSchema(op_type, version, domain)]: a null pointer
    when nothing is registered. *)
Definition OpSchemaRegistry := string → Z → string → option OpSchema.t.

(** ** Failures and the destination-passing monad

    [ONNX_THROW(msg)] raises [std::runtime_error(msg)]; dereferencing the null
    schema pointer is kept apart.  A computation threads the destination it
    appends to and stops at the first failure, leaving the destination as it
    was at that point. *)

Inductive failure :=
  | runtime_error (what : string)
  | null_schema_dereference.

Definition M (S A : Type) : Type := S → S * (failure + A).

Definition throw {S A} (e : failure) : M S A := λ st, (st, inl e).
Definition modify {S} (f : S → S) : M S unit := λ st, (f st, inr tt).

#[global] Instance M_ret {S} : MRet (M S) := λ A a st, (st, inr a).
#[global] Instance M_bind {S} : MBind (M S) := λ A B k c st,
  match c st with
  | (st', inr a) => k a st'
  | (st', inl e) => (st', inl e)
  end.

Definition lift {S A} (r : failure + A) : M S A :=
  match r with inl e => throw e | inr a => mret a end.

Fixpoint for_each {S A} (l : list A) (body : A → M S unit) : M S unit :=
  match l with
  | [] => mret tt
  | x :: l' => body x ;; for_each l' body
  end.

(** ** FunctionExpandHelper *)

Definition InteralTensorNameGenerator (node_name internal_name : string) : string :=
  ("Func_" +:+ node_name) +:+ internal_name.

(** [static_cast<int>] of a 64-bit value: reduction to 32 bits, two's complement. *)
Definition static_cast_int (z : Z) : Z := (z + 2 ^ 31) mod 2 ^ 32 - 2 ^ 31.

Section expand.
(** The process-wide registry, and the text that streaming the address of
    the call-site node into a [stringstream] yields. *)
Variable registry : OpSchemaRegistry.
Variable address : string.

Definition uniq_prefix (node_prefix : string) : string :=
  if decide (node_prefix = "") then address else node_prefix.

Definition node_name (node : NodeProto.t) (func : FunctionProto.t)
    (node_prefix : string) : string :=
  match NodeProto.name node with
  | Some n => n
  | None => FunctionProto.name func +:+ uniq_prefix node_prefix
  end.

(** First loop: [io_names_map[func.input(idx)] = node.input(idx)], the
    actual inputs from position [idx] on. *)
Fixpoint bind_inputs (nm : string) (formals : list string) (idx : nat)
    (actuals : list string) (io_names_map : gmap string string)
    : failure + gmap string string :=
  match actuals with
  | [] => inr io_names_map
  | actual :: rest =>
      match formals !! idx with
      | None =>
          inl (runtime_error
                 (("Input for function node " +:+ nm) +:+ " is out of bounds"))
      | Some formal =>
          bind_inputs nm formals (S idx) rest (<[formal := actual]> io_names_map)
      end
  end.

(** Second loop: the same for outputs, an empty actual name skipped. *)
Fixpoint bind_outputs (nm : string) (formals : list string) (idx : nat)
    (actuals : list string) (io_names_map : gmap string string)
    : failure + gmap string string :=
  match actuals with
  | [] => inr io_names_map
  | actual :: rest =>
      match formals !! idx with
      | None =>
          inl (runtime_error
                 (("Output for function node " +:+ nm) +:+ " is out of bounds"))
      | Some formal =>
          if decide (actual = "")
          then bind_outputs nm formals (S idx) rest io_names_map
          else bind_outputs nm formals (S idx) rest
                 (<[formal := actual]> io_names_map)
      end
  end.

(** [for (auto& attr : node.attribute()) attr_map[attr.name()] = attr;] *)
Definition node_attr_map (node : NodeProto.t) : gmap string AttributeProto.t :=
  foldl (λ m attr, <[AttributeProto.name attr := attr]> m) ∅
        (NodeProto.attribute node).

(** The scan of the opset imports, from the initial [-1]. *)
Definition scan_opset_import (dom : string) (imports : list OperatorSetIdProto.t)
    (domain_version : Z) : Z :=
  foldl (λ dv opset_import,
           if decide (OperatorSetIdProto.domain opset_import = dom)
           then static_cast_int (OperatorSetIdProto.version opset_import)
           else dv)
        domain_version imports.

Definition domain_version (node : NodeProto.t) (func : FunctionProto.t) : Z :=
  scan_opset_import (NodeProto.domain node) (FunctionProto.opset_import func) (-1).

(** Defaults of the schema for the attributes the node did not give. *)
Definition add_default_attrs (default_attrs : gmap string OpSchema.Attribute)
    (attr_map : gmap string AttributeProto.t) : gmap string AttributeProto.t :=
  foldl (λ m pair,
           match m !! pair.1 with
           | Some _ => m
           | None => <[pair.1 := OpSchema.default_value pair.2]> m
           end)
        attr_map (map_to_list default_attrs).

Definition rename_value (nm : string) (io_names_map : gmap string string)
    (x : string) : string :=
  match io_names_map !! x with
  | Some actual => actual
  | None => InteralTensorNameGenerator nm x
  end.

Definition expand_attribute (attr_map : gmap string AttributeProto.t)
    (attr : AttributeProto.t) : option AttributeProto.t :=
  match AttributeProto.ref_attr_name attr with
  | Some ref =>
      match attr_map !! ref with
      | Some a => Some (AttributeProto.set_name (AttributeProto.name attr) a)
      | None => None
      end
  | None => Some attr
  end.

(** The copy of one body node: [CopyFrom], the three [clear_*], then the
    renamed inputs and outputs and the resolved attributes. *)
Definition expand_node (nm : string) (io_names_map : gmap string string)
    (attr_map : gmap string AttributeProto.t) (function_node : NodeProto.t)
    : NodeProto.t :=
  NodeProto.mk
    (rename_value nm io_names_map <$> NodeProto.input function_node)
    (rename_value nm io_names_map <$> NodeProto.output function_node)
    (NodeProto.name function_node)
    (NodeProto.op_type function_node)
    (NodeProto.domain function_node)
    (omap (expand_attribute attr_map) (NodeProto.attribute function_node))
    (NodeProto.doc_string function_node).

Definition FunctionExpandHelper (node : NodeProto.t) (func : FunctionProto.t)
    (node_prefix : string) : M GraphProto.t unit :=
  let nm := node_name node func node_prefix in
  io_in ← lift (bind_inputs nm (FunctionProto.input func) 0
                  (NodeProto.input node) ∅) ;
  io_names_map ← lift (bind_outputs nm (FunctionProto.output func) 0
                         (NodeProto.output node) io_in) ;
  let attr_map := node_attr_map node in
  let dv := domain_version node func in
  (if decide (dv = -1)
   then throw (runtime_error
                 (("No opset import registered for domain '"
                     +:+ NodeProto.domain node) +:+ "' in function proto"))
   else mret tt) ;;
  match registry (NodeProto.op_type node) dv (NodeProto.domain node) with
  | None => throw null_schema_dereference
  | Some schema =>
      let attr_map := add_default_attrs (OpSchema.attributes schema) attr_map in
      for_each (FunctionProto.node func)
        (λ function_node,
           modify (GraphProto.add_node
                     (expand_node nm io_names_map attr_map function_node)))
  end.
End expand.

(** ** FunctionBuilder::AddInlinedCall *)

(** Modelled from the spec: [inliner::Renamer] is declared in
    onnx/inliner/inliner.h, outside these sources.  The interface holds the
    constructor and the three methods [AddInlinedCall] calls, with the contract
    the specification gives [BindToUniqueName]: the name it returns is new
    among the names the renamer knows, becomes known, and is what the original
    name is bound to from then on.  [known_names] and [bound] observe the
    renamer; the code never calls them. *)
Class Renamer (R : Type) := {
  new_renamer : string → GraphProto.t → R;
  BindName : string → string → R → R;
  BindToUniqueName : string → R → string * R;
  RenameNode : NodeProto.t → R → NodeProto.t * R;
  known_names : R → gset string;
  bound : R → string → option string;
  BindToUniqueName_fresh r x :
    (BindToUniqueName x r).1 ∉ known_names r;
  BindToUniqueName_known r x :
    known_names (BindToUniqueName x r).2
    = {[ (BindToUniqueName x r).1 ]} ∪ known_names r;
  BindToUniqueName_bound r x :
    bound (BindToUniqueName x r).2 x = Some (BindToUniqueName x r).1
}.

(** Modelled from the spec: [FunctionBuilder::Const] is declared in
    onnx/defs/function.h, outside these sources.  It emits a constant-producing
    operation record with the given output name and the tensor as its value. *)
Definition value_attribute (tensor : TensorProto.t) : AttributeProto.t :=
  AttributeProto.mk "value" None "" AttributeProto.TENSOR 0 "" (Some tensor) [] [].

Definition constant_node (name : string) (tensor : TensorProto.t) : NodeProto.t :=
  NodeProto.mk [] [name] None "Constant" "" [value_attribute tensor] "".

Definition Const (name : string) (tensor : TensorProto.t)
    (funProto : FunctionProto.t) : FunctionProto.t :=
  FunctionProto.add_node (constant_node name tensor) funProto.

Section inlined_call.
Context {R : Type} `{Renamer R}.

(** The two binding loops: one formal per step, an actual consumed while the
    caller's list lasts. *)
Fixpoint bind_formals (formals : list ValueInfoProto.t) (actuals : list string)
    (renamer : R) : R :=
  match formals with
  | [] => renamer
  | formal :: formals' =>
      match actuals with
      | actual :: actuals' =>
          bind_formals formals' actuals'
            (BindName (ValueInfoProto.name formal) actual renamer)
      | [] => bind_formals formals' [] renamer
      end
  end.

(** One step of the initializer loop. *)
Definition add_initializer (st : R * FunctionProto.t)
    (initializer : TensorProto.t) : R * FunctionProto.t :=
  let '(const_name, renamer) :=
    BindToUniqueName (TensorProto.name initializer) st.1 in
  (renamer, Const const_name initializer st.2).

(** One step of the node loop. *)
Definition add_renamed_node (st : R * FunctionProto.t)
    (node : NodeProto.t) : R * FunctionProto.t :=
  let '(new_node, renamer) := RenameNode node st.1 in
  (renamer, FunctionProto.add_node new_node st.2).

(** The renamer once the formal inputs and outputs are bound. *)
Definition bound_renamer (outputs : list string) (graph : GraphProto.t)
    (inputs : list string) (prefix : string) : R :=
  bind_formals (GraphProto.output graph) outputs
    (bind_formals (GraphProto.input graph) inputs (new_renamer prefix graph)).

Definition AddInlinedCall (outputs : list string) (graph : GraphProto.t)
    (inputs : list string) (prefix : string) (funProto : FunctionProto.t)
    : FunctionProto.t :=
  let renamer := bound_renamer outputs graph inputs prefix in
  let st := foldl add_initializer (renamer, funProto)
                  (GraphProto.initializer graph) in
  (foldl add_renamed_node st (GraphProto.node graph)).2.

(** The names the initializer loop mints, in order, from a renamer. *)
Fixpoint minted_names (initializers : list TensorProto.t) (renamer : R)
    : list string :=
  match initializers with
  | [] => []
  | initializer :: rest =>
      let '(const_name, renamer') :=
        BindToUniqueName (TensorProto.name initializer) renamer in
      const_name :: minted_names rest renamer'
  end.

(** The renamer the initializer loop leaves. *)
Definition renamer_after_initializers (initializers : list TensorProto.t)
    (renamer : R) : R :=
  foldl (λ r initializer,
           (BindToUniqueName (TensorProto.name initializer) r).2)
        renamer initializers.

(** The copies the node loop appends, in order, from a renamer. *)
Fixpoint renamed_nodes (nodes : list NodeProto.t) (renamer : R)
    : list NodeProto.t :=
  match nodes with
  | [] => []
  | node :: rest =>
      let '(new_node, renamer') := RenameNode node renamer in
      new_node :: renamed_nodes rest renamer'
  end.
End inlined_call.

(** Modelled from the spec: a renamer that meets the interface, following the
    steps of the graph splicer.  A bound name becomes its target; an unbound
    name becomes prefix followed by the name, and the mapping is memoized; a
    unique name is derived from prefix and original name and avoids every
    name the renamer knows, which starts as the names of the graph it was
    created for. *)
Module PrefixRenamer.
Record t := mk {
  prefix : string;
  bindings : gmap string string;
  names : gset string }.

Definition graph_names (graph : GraphProto.t) : gset string :=
  list_to_set
    ((ValueInfoProto.name <$> GraphProto.input graph)
     ++ (ValueInfoProto.name <$> GraphProto.output graph)
     ++ (TensorProto.name <$> GraphProto.initializer graph)
     ++ (GraphProto.node graph ≫=
           λ n, (NodeProto.input n ++ NodeProto.output n))).

Definition create (prefix : string) (graph : GraphProto.t) : t :=
  mk prefix ∅ (graph_names graph).

Definition bind_name (formal actual : string) (r : t) : t :=
  mk (prefix r) (<[formal := actual]> (bindings r)) (names r).

Definition bind_to_unique_name (original : string) (r : t) : string * t :=
  let unique := fresh_string_of_set (prefix r +:+ original) (names r) in
  (unique, mk (prefix r) (<[original := unique]> (bindings r))
              ({[ unique ]} ∪ names r)).

Definition rename (x : string) (r : t) : string * t :=
  match bindings r !! x with
  | Some y => (y, r)
  | None =>
      let y := prefix r +:+ x in
      (y, mk (prefix r) (<[x := y]> (bindings r)) (names r))
  end.

Fixpoint rename_all (xs : list string) (r : t) : list string * t :=
  match xs with
  | [] => ([], r)
  | x :: xs' =>
      let '(y, r1) := rename x r in
      let '(ys, r2) := rename_all xs' r1 in
      (y :: ys, r2)
  end.

Definition rename_node (n : NodeProto.t) (r : t) : NodeProto.t * t :=
  let '(ins, r1) := rename_all (NodeProto.input n) r in
  let '(outs, r2) := rename_all (NodeProto.output n) r1 in
  (NodeProto.mk ins outs (NodeProto.name n) (NodeProto.op_type n)
     (NodeProto.domain n) (NodeProto.attribute n) (NodeProto.doc_string n),
   r2).

#[global, refine] Instance renamer : Renamer t := {
  new_renamer := create;
  BindName := bind_name;
  BindToUniqueName := bind_to_unique_name;
  RenameNode := rename_node;
  known_names := names;
  bound r x := bindings r !! x }.
Proof.
  - intros r x. apply fresh_string_of_set_fresh.
  - reflexivity.
  - intros r x. apply lookup_insert_eq.
Defined.
End PrefixRenamer.

(** ** AxesInputToAttribute::adapt, the extraction of the axes

    The graph IR (onnx/common/ir.h, onnx/common/tensor.h) is outside these
    sources.  Of the second input's producer the adapter reads its kind and,
    for a Constant, the tensor under [kvalue]; of a tensor its [int64s()], its
    [raw()] bytes and [size_from_dim(0)]. *)
Module Tensor.
Record t := mk {
  name : string;
  sizes : list Z;
  int64s : list Z;
  raw : list Byte.byte }.
End Tensor.

(** What [adapt] comes to for the axes: the value of [kaxes] on the node it
    returns, a failed [ONNX_ASSERTM], or a read outside the raw data, when
    the element count does not fit the bytes. *)
Inductive adapt_outcome :=
  | axes_set (axes : list Z)
  | assert_error (msg : string)
  | read_outside_raw_data.

(** Eight bytes read as one [int64_t], least significant byte first, the
    layout of the raw data and of the hosts that reinterpret them in place. *)
Definition int64_of_bytes (bs : list Byte.byte) : Z :=
  let u := foldr (λ b acc, Z.of_N (Byte.to_N b) + 256 * acc) 0 bs in
  if decide (u < 2 ^ 63)%Z then u else u - 2 ^ 64.

(** The buffer as consecutive [int64_t] values, [n] of them. *)
Fixpoint reinterpret_int64 (n : nat) (bs : list Byte.byte) : list Z :=
  match n with
  | O => []
  | S n' => int64_of_bytes (take 8 bs) :: reinterpret_int64 n' (drop 8 bs)
  end.

Inductive producer :=
  | kConstant (value : Tensor.t)
  | kOther (uniqueName : string).

Section adapt.
(** [Tensor::size_from_dim], taken as given. *)
Variable size_from_dim : Tensor.t → Z → Z.

Definition raw_data_ok (raw_data : list Byte.byte) : bool :=
  negb (bool_decide (raw_data = []))
  && bool_decide (Z.of_nat (length raw_data) mod 8 = 0).

(** The branch for a Constant producer. *)
Definition axes_of_constant (value : Tensor.t) : adapt_outcome :=
  if bool_decide (Tensor.int64s value = [])
  then
    let raw_data := Tensor.raw value in
    if raw_data_ok raw_data
    then
      let n := size_from_dim value 0 in
      if bool_decide (0 ≤ n ≤ Z.of_nat (length raw_data) / 8)%Z
      then axes_set (reinterpret_int64 (Z.to_nat n) raw_data)
      else read_outside_raw_data
    else assert_error
           "Raw Data must be non-empty and size must be a multiple of 8"
  else axes_set (Tensor.int64s value).

(** The branch for any other producer: the first initializer of that name. *)
Fixpoint axes_of_initializer (uniqueName : string)
    (initializers : list Tensor.t) : option (list Z) :=
  match initializers with
  | [] => None
  | initializer :: rest =>
      if decide (Tensor.name initializer = uniqueName)
      then Some (Tensor.int64s initializer)
      else axes_of_initializer uniqueName rest
  end.

(** [axes] is the [kaxes] attribute the node has when [adapt] is entered, if
    any; the closing assertion looks for the attribute, whoever set it. *)
Definition adapt_axes (axes : option (list Z)) (initializers : list Tensor.t)
    (const_val : producer) : adapt_outcome :=
  match const_val with
  | kConstant value => axes_of_constant value
  | kOther uniqueName =>
      match axes_of_initializer uniqueName initializers with
      | Some found => axes_set found
      | None =>
          match axes with
          | Some present => axes_set present
          | None => assert_error "No initializer or constant input to node found"
          end
      end
  end.
End adapt.

(** The element count of a tensor whose extents are [sizes]: their product
    from dimension [dim] on. *)
Definition size_from_dim_product (value : Tensor.t) (dim : Z) : Z :=
  foldr Z.mul 1 (drop (Z.to_nat dim) (Tensor.sizes value)).

(** * Definitions for the statements

    What the properties below are stated with: the stages of one expansion
    put together, the destination with nodes appended, and the concrete
    definitions, calls, registries, graphs and tensors the properties are
    tried on. *)

(** The graph with [new_nodes] after its nodes, every other field kept. *)
Definition append_nodes (new_nodes : list NodeProto.t) (g : GraphProto.t)
    : GraphProto.t :=
  GraphProto.mk (GraphProto.node g ++ new_nodes) (GraphProto.name g)
    (GraphProto.initializer g) (GraphProto.input g) (GraphProto.output g).

(** One assignment [io_names_map[formal] = actual]. *)
Definition insert_binding (m : gmap string string) (p : string * string)
    : gmap string string :=
  <[p.1 := p.2]> m.

(** The three failures [FunctionExpandHelper] throws. *)
Definition input_out_of_bounds (nm : string) : failure :=
  runtime_error (("Input for function node " +:+ nm) +:+ " is out of bounds").

Definition output_out_of_bounds (nm : string) : failure :=
  runtime_error (("Output for function node " +:+ nm) +:+ " is out of bounds").

Definition unresolved_opset_import (dom : string) : failure :=
  runtime_error
    (("No opset import registered for domain '" +:+ dom) +:+ "' in function proto").

(** The pairs the output loop binds: those whose actual name is not empty. *)
Definition nonempty_actual (p : string * string) : Prop := p.2 ≠ "".

#[global] Instance nonempty_actual_dec p : Decision (nonempty_actual p).
Proof. unfold nonempty_actual. apply _. Defined.

(** Both binding loops, in sequence. *)
Definition bind_io (nm : string) (node : NodeProto.t) (func : FunctionProto.t)
    : failure + gmap string string :=
  match bind_inputs nm (FunctionProto.input func) 0 (NodeProto.input node) ∅ with
  | inl e => inl e
  | inr io_in =>
      bind_outputs nm (FunctionProto.output func) 0 (NodeProto.output node) io_in
  end.

(** The attribute mapping once the defaults of [schema] are added. *)
Definition resolved_attr_map (node : NodeProto.t) (schema : OpSchema.t)
    : gmap string AttributeProto.t :=
  add_default_attrs (OpSchema.attributes schema) (node_attr_map node).

(** The copies of the body nodes, in body order. *)
Definition expanded_body (nm : string) (io_names_map : gmap string string)
    (attr_map : gmap string AttributeProto.t) (func : FunctionProto.t)
    : list NodeProto.t :=
  expand_node nm io_names_map attr_map <$> FunctionProto.node func.

(** A definition with the formal input [X] declared twice, and a call to it
    with two inputs. *)
Definition repeated_formal_function : FunctionProto.t :=
  FunctionProto.mk "F" ["X"; "X"] ["Y"] []
    [NodeProto.mk ["X"] ["Y"] None "Relu" "" [] ""]
    [OperatorSetIdProto.mk "" 14] "".

Definition two_input_call : NodeProto.t :=
  NodeProto.mk ["a"; "b"] ["c"] (Some "call") "F" "" [] "".

(** The function [F(X, Y) = Relu(Add(X, Y))] over opset 14 of the default
    domain, a registry holding one schema without attributes, and calls to
    [F] with two, three and two inputs and one, one and two outputs. *)
Definition add_relu_function : FunctionProto.t :=
  FunctionProto.mk "F" ["X"; "Y"] ["Z"] []
    [NodeProto.mk ["X"; "Y"] ["T"] None "Add" "" [] "";
     NodeProto.mk ["T"] ["Z"] None "Relu" "" [] ""]
    [OperatorSetIdProto.mk "" 14] "".

Definition plain_registry : OpSchemaRegistry :=
  λ op_type version domain, Some (OpSchema.mk ∅).

Definition empty_graph : GraphProto.t := GraphProto.mk [] "main" [] [] [].

Definition call_to_F (inputs outputs : list string) : NodeProto.t :=
  NodeProto.mk inputs outputs (Some "call") "F" "" [] "".

(** A definition that hands its input [X] back as second output, and a call
    that leaves that output unused. *)
Definition pass_through_function : FunctionProto.t :=
  FunctionProto.mk "G" ["X"] ["Y"; "X"] []
    [NodeProto.mk ["X"] ["Y"] None "Relu" "" [] ""]
    [OperatorSetIdProto.mk "" 14] "".

Definition call_without_second_output : NodeProto.t :=
  NodeProto.mk ["a"] ["c"; ""] (Some "call") "G" "" [] "".

(** Every value name the body of a definition mentions. *)
Definition body_value_names (func : FunctionProto.t) : list string :=
  FunctionProto.node func ≫= λ n, (NodeProto.input n ++ NodeProto.output n).

(** A name without an entry in the map. *)
Definition unbound_in (io_names_map : gmap string string) (x : string) : Prop :=
  io_names_map !! x = None.

#[global] Instance unbound_in_dec io_names_map x : Decision (unbound_in io_names_map x).
Proof. unfold unbound_in. apply _. Defined.

(** The names an expansion that reaches the body takes from
    [InteralTensorNameGenerator]: one for each body value name without an
    entry in the map. *)
Definition generated_internal_names (address : string) (node : NodeProto.t)
    (func : FunctionProto.t) (node_prefix : string) : list string :=
  let nm := node_name address node func node_prefix in
  match bind_io nm node func with
  | inl _ => []
  | inr io_names_map =>
      InteralTensorNameGenerator nm
        <$> filter (unbound_in io_names_map) (body_value_names func)
  end.

(** A definition whose internal values are named [_1_t] and [_t], and two call
    sites named [add] and [add_1]. *)
Definition three_relu_function : FunctionProto.t :=
  FunctionProto.mk "H" ["X"] ["Y"] []
    [NodeProto.mk ["X"] ["_1_t"] None "Relu" "" [] "";
     NodeProto.mk ["_1_t"] ["_t"] None "Relu" "" [] "";
     NodeProto.mk ["_t"] ["Y"] None "Relu" "" [] ""]
    [OperatorSetIdProto.mk "" 14] "".

Definition call_add : NodeProto.t :=
  NodeProto.mk ["a"] ["b"] (Some "add") "H" "" [] "".

Definition call_add_1 : NodeProto.t :=
  NodeProto.mk ["b"] ["c"] (Some "add_1") "H" "" [] "".

(** An attribute that refers to the caller's attribute [ref], and an integer
    attribute. *)
Definition reference_attribute (name ref : string) : AttributeProto.t :=
  AttributeProto.mk name (Some ref) "" AttributeProto.UNDEFINED 0 "" None [] [].

Definition int_attribute (name : string) (value : Z) : AttributeProto.t :=
  AttributeProto.mk name None "" AttributeProto.INT value "" None [] [].

(** A definition [S] whose one body node refers to the caller's [alpha] and
    [gamma] and carries a literal [axis]; the schema of [S] at version 14
    declares [alpha] with default 2; the call gives no attribute. *)
Definition scale_function : FunctionProto.t :=
  FunctionProto.mk "S" ["X"] ["Y"] ["alpha"; "gamma"]
    [NodeProto.mk ["X"] ["Y"] None "Scale" ""
       [reference_attribute "scale" "alpha";
        reference_attribute "bias" "gamma";
        int_attribute "axis" 1] ""]
    [OperatorSetIdProto.mk "" 14] "".

Definition scale_schema : OpSchema.t :=
  OpSchema.mk
    {[ "alpha" := OpSchema.mkAttribute "alpha" false (int_attribute "alpha" 2) ]}.

Definition scale_registry : OpSchemaRegistry :=
  λ op_type version domain,
    if decide (op_type = "S" ∧ version = 14 ∧ domain = "")
    then Some scale_schema else None.

Definition call_to_S : NodeProto.t :=
  NodeProto.mk ["a"] ["b"] (Some "call") "S" "" [] "".

(** A definition whose one opset import, for the default domain, carries the
    version -1. *)
Definition minus_one_import_function : FunctionProto.t :=
  FunctionProto.mk "F" ["X"; "Y"] ["Z"] []
    [NodeProto.mk ["X"; "Y"] ["T"] None "Add" "" [] "";
     NodeProto.mk ["T"] ["Z"] None "Relu" "" [] ""]
    [OperatorSetIdProto.mk "" (-1)] "".

(** A call to [F] in a domain the definition does not import. *)
Definition call_in_custom_domain : NodeProto.t :=
  NodeProto.mk ["a"; "b"] ["c"] (Some "call") "F" "custom" [] "".

(** A definition with two opset imports for the default domain, the later one
    carrying the version -1. *)
Definition two_import_function : FunctionProto.t :=
  FunctionProto.mk "F" ["X"; "Y"] ["Z"] []
    [NodeProto.mk ["X"; "Y"] ["T"] None "Add" "" [] "";
     NodeProto.mk ["T"] ["Z"] None "Relu" "" [] ""]
    [OperatorSetIdProto.mk "" 14; OperatorSetIdProto.mk "" (-1)] "".

(** A definition whose imports for the default domain are 13, then 14; the
    registry knows [F] at version 14 only. *)
Definition reimported_function : FunctionProto.t :=
  FunctionProto.mk "F" ["X"; "Y"] ["Z"] []
    [NodeProto.mk ["X"; "Y"] ["T"] None "Add" "" [] "";
     NodeProto.mk ["T"] ["Z"] None "Relu" "" [] ""]
    [OperatorSetIdProto.mk "" 13; OperatorSetIdProto.mk "other" 2;
     OperatorSetIdProto.mk "" 14] "".

Definition version_14_registry : OpSchemaRegistry :=
  λ op_type version domain,
    if decide (version = 14) then Some (OpSchema.mk ∅) else None.

(** The function with [new_nodes] after its nodes, every other field kept. *)
Definition append_function_nodes (new_nodes : list NodeProto.t)
    (funProto : FunctionProto.t) : FunctionProto.t :=
  FunctionProto.mk (FunctionProto.name funProto) (FunctionProto.input funProto)
    (FunctionProto.output funProto) (FunctionProto.attribute funProto)
    (FunctionProto.node funProto ++ new_nodes)
    (FunctionProto.opset_import funProto) (FunctionProto.domain funProto).

(** A graph with the initializer [W] and the body [MatMul(X, W) -> Y], spliced
    under the prefix [p1_] with [X] bound to [input0] and [Y] to [output0]. *)
Definition weight : TensorProto.t := TensorProto.mk "W" [1] [7] "".

Definition matmul_graph : GraphProto.t :=
  GraphProto.mk [NodeProto.mk ["X"; "W"] ["Y"] None "MatMul" "" [] ""] "body"
    [weight] [ValueInfoProto.mk "X"] [ValueInfoProto.mk "Y"].

Definition empty_function : FunctionProto.t :=
  FunctionProto.mk "built" [] [] [] [] [] "".

(** A tensor that holds its one value, 3, in the int64 list and has no raw
    data; and sixteen raw bytes holding 1 and 2 in a tensor declared with one
    element. *)
Definition typed_tensor : Tensor.t := Tensor.mk "axes" [1] [3] [].

Definition sixteen_bytes : list Byte.byte :=
  [Byte.x01; Byte.x00; Byte.x00; Byte.x00; Byte.x00; Byte.x00; Byte.x00; Byte.x00;
   Byte.x02; Byte.x00; Byte.x00; Byte.x00; Byte.x00; Byte.x00; Byte.x00; Byte.x00].

Definition one_element_tensor : Tensor.t := Tensor.mk "axes" [1] [] sixteen_bytes.

(** Eight bytes holding -2, and three bytes. *)
Definition eight_bytes : list Byte.byte :=
  [Byte.xfe; Byte.xff; Byte.xff; Byte.xff; Byte.xff; Byte.xff; Byte.xff; Byte.xff].

Definition three_bytes : list Byte.byte := [Byte.x01; Byte.x00; Byte.x00].

(** * FunctionBodyHelper

    [NodeDef] and its attribute wrapper are declared in onnx/defs/function.h;
    the builders read the five fields below and, of a wrapper, its [proto]. *)

Module AttributeProtoWrapper.
Record t := mk { proto : AttributeProto.t }.
End AttributeProtoWrapper.

Module NodeDef.
Record t := mk {
  outputs : list string;
  op_type : string;
  inputs : list string;
  attributes : list AttributeProtoWrapper.t;
  domain : string }.
End NodeDef.

(** The setters of a node message the builders call, and the message a
    default-constructed [NodeProto] is. *)
Module NodeProtoOps.
Definition default : NodeProto.t := NodeProto.mk [] [] None "" "" [] "".

Definition set_op_type (v : string) (n : NodeProto.t) : NodeProto.t :=
  NodeProto.mk (NodeProto.input n) (NodeProto.output n) (NodeProto.name n) v
    (NodeProto.domain n) (NodeProto.attribute n) (NodeProto.doc_string n).

Definition set_domain (v : string) (n : NodeProto.t) : NodeProto.t :=
  NodeProto.mk (NodeProto.input n) (NodeProto.output n) (NodeProto.name n)
    (NodeProto.op_type n) v (NodeProto.attribute n) (NodeProto.doc_string n).

Definition add_input (v : string) (n : NodeProto.t) : NodeProto.t :=
  NodeProto.mk (NodeProto.input n ++ [v]) (NodeProto.output n) (NodeProto.name n)
    (NodeProto.op_type n) (NodeProto.domain n) (NodeProto.attribute n)
    (NodeProto.doc_string n).

Definition add_output (v : string) (n : NodeProto.t) : NodeProto.t :=
  NodeProto.mk (NodeProto.input n) (NodeProto.output n ++ [v]) (NodeProto.name n)
    (NodeProto.op_type n) (NodeProto.domain n) (NodeProto.attribute n)
    (NodeProto.doc_string n).

Definition add_attribute (a : AttributeProto.t) (n : NodeProto.t) : NodeProto.t :=
  NodeProto.mk (NodeProto.input n) (NodeProto.output n) (NodeProto.name n)
    (NodeProto.op_type n) (NodeProto.domain n) (NodeProto.attribute n ++ [a])
    (NodeProto.doc_string n).
End NodeProtoOps.

Module FunctionBodyHelper.
(** The body of both loops: the fields of one [NodeDef] written into the
    node [n]. *)
Definition fill_node (node : NodeDef.t) (n : NodeProto.t) : NodeProto.t :=
  let n := NodeProtoOps.set_op_type (NodeDef.op_type node) n in
  let n := NodeProtoOps.set_domain (NodeDef.domain node) n in
  let n := foldl (λ n i, NodeProtoOps.add_input i n) n (NodeDef.inputs node) in
  let n := foldl (λ n o, NodeProtoOps.add_output o n) n (NodeDef.outputs node) in
  foldl (λ n attr, NodeProtoOps.add_attribute (AttributeProtoWrapper.proto attr) n)
        n (NodeDef.attributes node).

(** [BuildNodes(const std::vector<NodeDef>&)]: a vector of as many default
    nodes as there are definitions, then the node at each index filled from
    the definition at that index. *)
Definition BuildNodes (node_defs : list NodeDef.t) : list NodeProto.t :=
  foldl (λ nodes i,
           match node_defs !! i, nodes !! i with
           | Some node, Some n => <[i := fill_node node n]> nodes
           | _, _ => nodes
           end)
        (replicate (length node_defs) NodeProtoOps.default)
        (seq 0 (length node_defs)).

(** [BuildNodes(FunctionProto&, const std::vector<NodeDef>&)]: one node added
    to the function per definition, and filled. *)
Definition BuildNodes_function (functionProto : FunctionProto.t)
    (node_defs : list NodeDef.t) : FunctionProto.t :=
  foldl (λ fp node,
           FunctionProto.add_node (fill_node node NodeProtoOps.default) fp)
        functionProto node_defs.

(** [*functionProto.mutable_opset_import()->Add() = relied_opset] *)
Definition add_opset_import (relied_opset : OperatorSetIdProto.t)
    (f : FunctionProto.t) : FunctionProto.t :=
  FunctionProto.mk (FunctionProto.name f) (FunctionProto.input f)
    (FunctionProto.output f) (FunctionProto.attribute f) (FunctionProto.node f)
    (FunctionProto.opset_import f ++ [relied_opset]) (FunctionProto.domain f).

Section build_function.
(** [OpSchema::BuildFunction], defined in onnx/defs/schema.cc, taken as given. *)
Variable BuildFunction : OpSchema.t → FunctionProto.t → FunctionProto.t.

Definition BuildFunctionProto (functionProto : FunctionProto.t)
    (schema : OpSchema.t) (node_defs : list NodeDef.t)
    (relied_opsets : list OperatorSetIdProto.t) : bool * FunctionProto.t :=
  let functionProto := BuildNodes_function functionProto node_defs in
  let functionProto :=
    foldl (λ fp relied_opset, add_opset_import relied_opset fp)
          functionProto relied_opsets in
  (true, BuildFunction schema functionProto).
End build_function.
End FunctionBodyHelper.

(** The node one definition becomes. *)
Definition node_of_def (node : NodeDef.t) : NodeProto.t :=
  NodeProto.mk (NodeDef.inputs node) (NodeDef.outputs node) None
    (NodeDef.op_type node) (NodeDef.domain node)
    (AttributeProtoWrapper.proto <$> NodeDef.attributes node) "".

(** Two definitions, [Add(X, Y) -> T] and [Relu(T) -> Z]. *)
Definition add_def : NodeDef.t := NodeDef.mk ["T"] "Add" ["X"; "Y"] [] "".

Definition relu_def : NodeDef.t := NodeDef.mk ["Z"] "Relu" ["T"] [] "".

(** A call to [S] that gives [alpha] twice, 5 then 7. *)
Definition call_to_S_with_alpha : NodeProto.t :=
  NodeProto.mk ["a"] ["b"] (Some "call") "S" ""
    [int_attribute "alpha" 5; int_attribute "alpha" 7] "".

(** A call to the definition that hands [X] back, both outputs used. *)
Definition call_with_both_outputs : NodeProto.t :=
  NodeProto.mk ["a"] ["c"; "d"] (Some "call") "G" "" [] "".

(** The function [F] with the body built from the two definitions. *)
Definition built_add_relu_function : FunctionProto.t :=
  FunctionProto.mk "F" ["X"; "Y"] ["Z"] []
    (FunctionBodyHelper.BuildNodes [add_def; relu_def])
    [OperatorSetIdProto.mk "" 14] "".

(** An initializer that holds the axis 1 as raw data only, and a second one
    of the same name that holds it in the int64 list. *)
Definition raw_initializer : Tensor.t :=
  Tensor.mk "axes" [1] []
    [Byte.x01; Byte.x00; Byte.x00; Byte.x00; Byte.x00; Byte.x00; Byte.x00; Byte.x00].

(** * Properties *)

(** ** The destination-passing monad *)

Lemma append_nodes_nil g : append_nodes [] g = g.
Proof. destruct g. unfold append_nodes. simpl. by rewrite app_nil_r. Qed.

Lemma append_nodes_add_node n new_nodes g :
  append_nodes new_nodes (GraphProto.add_node n g) = append_nodes (n :: new_nodes) g.
Proof. unfold append_nodes, GraphProto.add_node. simpl. by rewrite <- app_assoc. Qed.

Lemma for_each_add_node {A} (f : A → NodeProto.t) (l : list A) (g : GraphProto.t) :
  for_each l (λ x, modify (GraphProto.add_node (f x))) g
  = (append_nodes (f <$> l) g, inr tt).
Proof.
  revert g. induction l as [|x l IH]; intros g; simpl.
  - by rewrite append_nodes_nil.
  - unfold mbind, M_bind, modify. rewrite IH. by rewrite append_nodes_add_node.
Qed.

(** ** The binding loops as folds over the paired names *)

Lemma bind_inputs_zip nm formals actuals : ∀ idx m,
  (idx + length actuals ≤ length formals)%nat →
  bind_inputs nm formals idx actuals m
  = inr (foldl insert_binding m (zip (drop idx formals) actuals)).
Proof.
  induction actuals as [|a actuals IH]; intros idx m Hlen; simpl in *.
  - by destruct (drop idx formals).
  - destruct (lookup_lt_is_Some_2 formals idx) as [f Hf]; [lia|].
    rewrite Hf, (drop_S _ _ _ Hf). simpl. apply IH. lia.
Qed.

Lemma bind_inputs_out_of_bounds nm formals actuals : ∀ idx m,
  (idx ≤ length formals)%nat →
  (length formals < idx + length actuals)%nat →
  bind_inputs nm formals idx actuals m = inl (input_out_of_bounds nm).
Proof.
  induction actuals as [|a actuals IH]; intros idx m Hidx Hlen; simpl in *.
  - lia.
  - destruct (formals !! idx) as [f|] eqn:Hf; [|done].
    apply lookup_lt_Some in Hf. apply IH; lia.
Qed.

Lemma bind_outputs_zip nm formals actuals : ∀ idx m,
  (idx + length actuals ≤ length formals)%nat →
  bind_outputs nm formals idx actuals m
  = inr (foldl insert_binding m
           (filter nonempty_actual (zip (drop idx formals) actuals))).
Proof.
  induction actuals as [|a actuals IH]; intros idx m Hlen; simpl in *.
  - by destruct (drop idx formals).
  - destruct (lookup_lt_is_Some_2 formals idx) as [f Hf]; [lia|].
    rewrite Hf, (drop_S _ _ _ Hf). simpl.
    destruct (decide (a = "")) as [->|Hne].
    + rewrite filter_cons_False by (unfold nonempty_actual; simpl; tauto).
      apply IH. lia.
    + rewrite filter_cons_True by done. simpl. apply IH. lia.
Qed.

Lemma bind_outputs_out_of_bounds nm formals actuals : ∀ idx m,
  (idx ≤ length formals)%nat →
  (length formals < idx + length actuals)%nat →
  bind_outputs nm formals idx actuals m = inl (output_out_of_bounds nm).
Proof.
  induction actuals as [|a actuals IH]; intros idx m Hidx Hlen; simpl in *.
  - lia.
  - destruct (formals !! idx) as [f|] eqn:Hf; [|done].
    apply lookup_lt_Some in Hf.
    destruct (decide (a = "")); apply IH; lia.
Qed.

Lemma foldl_insert_binding_notin l : ∀ (m : gmap string string) k,
  k ∉ l.*1 → foldl insert_binding m l !! k = m !! k.
Proof.
  induction l as [|[f a] l IH]; intros m k Hk; simpl in *; [done|].
  apply not_elem_of_cons in Hk as [Hne Hk].
  rewrite IH by done. unfold insert_binding. simpl. by rewrite lookup_insert_ne.
Qed.

Lemma foldl_insert_binding_NoDup l : ∀ (m : gmap string string) k v,
  NoDup l.*1 → (k, v) ∈ l → foldl insert_binding m l !! k = Some v.
Proof.
  induction l as [|[f a] l IH]; intros m k v Hnd Hin; simpl in *.
  - by apply elem_of_nil in Hin.
  - apply NoDup_cons in Hnd as [Hf Hnd].
    apply elem_of_cons in Hin as [Heq|Hin].
    + injection Heq as -> ->. rewrite foldl_insert_binding_notin by done.
      unfold insert_binding. simpl. by rewrite lookup_insert_eq.
    + by apply IH.
Qed.

Lemma foldl_insert_binding_size l : ∀ (m : gmap string string),
  NoDup l.*1 → (∀ k, k ∈ l.*1 → m !! k = None) →
  size (foldl insert_binding m l) = (size m + length l)%nat.
Proof.
  induction l as [|[f a] l IH]; intros m Hnd Hm; simpl in *; [lia|].
  apply NoDup_cons in Hnd as [Hf Hnd].
  rewrite IH; [|done|].
  - unfold insert_binding. simpl.
    rewrite map_size_insert_None; [lia|]. apply Hm. left.
  - intros k Hk. unfold insert_binding. simpl. rewrite lookup_insert_ne.
    + apply Hm. by right.
    + intros ->. done.
Qed.

(** ** The stages of one expansion *)

Lemma FunctionExpandHelper_run registry address node func node_prefix g :
  FunctionExpandHelper registry address node func node_prefix g
  = let nm := node_name address node func node_prefix in
    match bind_io nm node func with
    | inl e => (g, inl e)
    | inr io_names_map =>
        if decide (domain_version node func = -1)
        then (g, inl (unresolved_opset_import (NodeProto.domain node)))
        else
          match registry (NodeProto.op_type node) (domain_version node func)
                  (NodeProto.domain node) with
          | None => (g, inl null_schema_dereference)
          | Some schema =>
              (append_nodes
                 (expanded_body nm io_names_map (resolved_attr_map node schema) func)
                 g,
               inr tt)
          end
    end.
Proof.
  unfold FunctionExpandHelper, bind_io. cbv zeta.
  unfold mbind, M_bind at 1.
  destruct (bind_inputs _ _ 0 _ ∅) as [e|io_in]; simpl; [done|].
  unfold M_bind at 1.
  destruct (bind_outputs _ _ 0 _ io_in) as [e|io]; simpl; [done|].
  unfold M_bind at 1.
  destruct (decide (domain_version node func = -1)) as [Hdv|Hdv]; simpl; [done|].
  destruct (registry _ _ _) as [schema|]; [|done].
  apply for_each_add_node.
Qed.

Lemma bind_io_ok nm node func :
  (length (NodeProto.input node) ≤ length (FunctionProto.input func))%nat →
  (length (NodeProto.output node) ≤ length (FunctionProto.output func))%nat →
  bind_io nm node func
  = inr (foldl insert_binding
           (foldl insert_binding ∅
              (zip (FunctionProto.input func) (NodeProto.input node)))
           (filter nonempty_actual
              (zip (FunctionProto.output func) (NodeProto.output node)))).
Proof.
  intros Hin Hout. unfold bind_io.
  rewrite bind_inputs_zip by (simpl; lia).
  rewrite bind_outputs_zip by (simpl; lia). done.
Qed.

(** ** The attribute mapping *)

Lemma add_default_attrs_union default_attrs attr_map :
  add_default_attrs default_attrs attr_map
  = attr_map ∪ (OpSchema.default_value <$> default_attrs).
Proof.
  unfold add_default_attrs.
  rewrite <- (list_to_map_to_list default_attrs) at 2.
  generalize (map_to_list default_attrs). intros l. revert attr_map.
  induction l as [|[k a] l IH]; intros m; simpl.
  - by rewrite fmap_empty, (right_id_L ∅ (∪)).
  - rewrite IH, fmap_insert, (insert_union_singleton_l (_ <$> _)).
    rewrite (assoc_L (∪)). f_equal.
    destruct (m !! k) as [v|] eqn:Hk.
    + apply map_eq. intros j. rewrite lookup_union.
      destruct (decide (j = k)) as [->|Hne].
      * rewrite Hk, lookup_singleton_eq. done.
      * rewrite lookup_singleton_ne by done. by destruct (m !! j).
    + rewrite insert_union_singleton_r by done. done.
Qed.

Lemma resolved_attr_map_lookup node schema k :
  resolved_attr_map node schema !! k
  = match node_attr_map node !! k with
    | Some a => Some a
    | None => OpSchema.default_value <$> OpSchema.attributes schema !! k
    end.
Proof.
  unfold resolved_attr_map. rewrite add_default_attrs_union, lookup_union.
  rewrite lookup_fmap.
  by destruct (node_attr_map node !! k), (OpSchema.attributes schema !! k).
Qed.

(** The node supplies an attribute name when one of its attributes has it. *)
Lemma node_attr_map_None node k :
  node_attr_map node !! k = None
  ↔ k ∉ AttributeProto.name <$> NodeProto.attribute node.
Proof.
  unfold node_attr_map.
  assert (∀ l (m : gmap string AttributeProto.t),
    foldl (λ m attr, <[AttributeProto.name attr := attr]> m) m l !! k = None
    ↔ m !! k = None ∧ k ∉ AttributeProto.name <$> l) as Hgen.
  { induction l as [|a l IH]; intros m; simpl.
    - split; [intros ?; split; [done|apply not_elem_of_nil]|tauto].
    - rewrite IH, not_elem_of_cons, lookup_insert_None. intuition congruence. }
  rewrite Hgen, lookup_empty. tauto.
Qed.

Lemma fst_zip_take (formals actuals : list string) :
  (zip formals actuals).*1 = take (length actuals) formals.
Proof.
  revert actuals. induction formals as [|f formals IH]; intros [|a actuals];
    simpl; try done.
  by rewrite IH.
Qed.

Lemma elem_of_zip_lookup (formals actuals : list string) i f a :
  formals !! i = Some f → actuals !! i = Some a → (f, a) ∈ zip formals actuals.
Proof.
  intros Hf Ha. apply list_elem_of_lookup. exists i.
  apply lookup_zip_with_Some. by exists f, a.
Qed.

(** ** Input and output arity (C2) *)

(** C2, as stated, fails: a call with two inputs to a definition whose two
    formal inputs carry the same name is within the formal input count, and
    the binding loop leaves one binding, [X] to [b], not two. *)
Lemma repeated_formal_binds_once :
  (length (NodeProto.input two_input_call)
   ≤ length (FunctionProto.input repeated_formal_function))%nat
  ∧ bind_inputs "call" (FunctionProto.input repeated_formal_function) 0
      (NodeProto.input two_input_call) ∅
    = inr (<["X" := "b"]> (<["X" := "a"]> ∅))
  ∧ size (<["X" := "b"]> (<["X" := "a"]> (∅ : gmap string string))) = 1%nat
  ∧ length (NodeProto.input two_input_call) = 2%nat.
Proof. repeat split; reflexivity. Qed.

(** C2, amended: a call with [k] inputs, [k] at most the formal input count
    and the first [k] formal input names pairwise distinct, is bound with
    exactly [k] bindings, formal [i] to actual [i]; with more inputs than
    formal inputs the expansion stops with the input out-of-bounds error, with
    more outputs than formal outputs (the inputs within bounds) with the output
    one, the message carrying the resolved name of the call site and the
    destination left as it was. *)
Theorem binding_arity registry address node func node_prefix g :
  let nm := node_name address node func node_prefix in
  let k := length (NodeProto.input node) in
  ((k ≤ length (FunctionProto.input func))%nat →
   NoDup (take k (FunctionProto.input func)) →
   ∃ io_names_map,
     bind_inputs nm (FunctionProto.input func) 0 (NodeProto.input node) ∅
     = inr io_names_map
     ∧ size io_names_map = k
     ∧ ∀ i formal actual,
         FunctionProto.input func !! i = Some formal →
         NodeProto.input node !! i = Some actual →
         io_names_map !! formal = Some actual)
  ∧ ((length (FunctionProto.input func) < k)%nat →
     FunctionExpandHelper registry address node func node_prefix g
     = (g, inl (runtime_error
                  (("Input for function node " +:+ nm) +:+ " is out of bounds"))))
  ∧ ((k ≤ length (FunctionProto.input func))%nat →
     (length (FunctionProto.output func) < length (NodeProto.output node))%nat →
     FunctionExpandHelper registry address node func node_prefix g
     = (g, inl (runtime_error
                  (("Output for function node " +:+ nm) +:+ " is out of bounds")))).
Proof.
  intros nm k. split; [|split].
  - subst k. intros Hk Hnd. eexists.
    split; [apply bind_inputs_zip; simpl; lia|].
    rewrite drop_0. split.
    + rewrite foldl_insert_binding_size.
      * rewrite map_size_empty, length_zip_with_r; [done|lia].
      * by rewrite fst_zip_take.
      * intros. apply lookup_empty.
    + intros i formal actual Hf Ha. apply foldl_insert_binding_NoDup.
      * by rewrite fst_zip_take.
      * by apply (elem_of_zip_lookup _ _ i).
  - intros Hk. rewrite FunctionExpandHelper_run. cbv zeta. unfold bind_io.
    rewrite bind_inputs_out_of_bounds by (simpl; lia). done.
  - intros Hk Hout. rewrite FunctionExpandHelper_run. cbv zeta. unfold bind_io.
    rewrite bind_inputs_zip by (simpl; lia).
    rewrite bind_outputs_out_of_bounds by (simpl; lia). done.
Qed.

Lemma binding_arity_witness :
  (∃ io_names_map,
     bind_inputs "call" ["X"; "Y"] 0 ["a"; "b"] ∅ = inr io_names_map
     ∧ size io_names_map = 2%nat
     ∧ ∀ i formal actual,
         ["X"; "Y"] !! i = Some formal → ["a"; "b"] !! i = Some actual →
         io_names_map !! formal = Some actual)
  ∧ FunctionExpandHelper plain_registry "0x1" (call_to_F ["a"; "b"; "c"] ["d"])
      add_relu_function "" empty_graph
    = (empty_graph,
       inl (runtime_error "Input for function node call is out of bounds"))
  ∧ FunctionExpandHelper plain_registry "0x1" (call_to_F ["a"; "b"] ["c"; "d"])
      add_relu_function "" empty_graph
    = (empty_graph,
       inl (runtime_error "Output for function node call is out of bounds")).
Proof.
  split; [|split].
  - apply (proj1 (binding_arity plain_registry "0x1" (call_to_F ["a"; "b"] ["c"])
                    add_relu_function "" empty_graph)).
    + simpl. lia.
    + apply (bool_decide_unpack _). vm_compute. exact I.
  - apply (proj1 (proj2 (binding_arity plain_registry "0x1"
                           (call_to_F ["a"; "b"; "c"] ["d"])
                           add_relu_function "" empty_graph))).
    simpl. lia.
  - apply (proj2 (proj2 (binding_arity plain_registry "0x1"
                           (call_to_F ["a"; "b"] ["c"; "d"])
                           add_relu_function "" empty_graph))).
    + simpl. lia.
    + simpl. lia.
Defined.

(** ** Unused outputs (C3) *)

(** The names [expand_node] gives the inputs and outputs of a body node. *)
Lemma expand_node_input nm io_names_map attr_map function_node p x :
  NodeProto.input function_node !! p = Some x →
  NodeProto.input (expand_node nm io_names_map attr_map function_node) !! p
  = Some (rename_value nm io_names_map x).
Proof. intros Hp. simpl. by rewrite list_lookup_fmap, Hp. Qed.

Lemma expand_node_output nm io_names_map attr_map function_node p x :
  NodeProto.output function_node !! p = Some x →
  NodeProto.output (expand_node nm io_names_map attr_map function_node) !! p
  = Some (rename_value nm io_names_map x).
Proof. intros Hp. simpl. by rewrite list_lookup_fmap, Hp. Qed.

Lemma rename_value_unbound nm (io_names_map : gmap string string) x :
  io_names_map !! x = None →
  rename_value nm io_names_map x = InteralTensorNameGenerator nm x.
Proof. intros Hx. unfold rename_value. by rewrite Hx. Qed.

Lemma elem_of_zip_inv (formals actuals : list string) f a :
  (f, a) ∈ zip formals actuals →
  ∃ j, formals !! j = Some f ∧ actuals !! j = Some a.
Proof.
  intros [j Hj]%list_elem_of_lookup.
  apply lookup_zip_with_Some in Hj as (f' & a' & Heq & Hf & Ha).
  injection Heq as -> ->. eauto.
Qed.

(** A formal name stays out of the map when no position binds it. *)
Lemma bind_io_unbound nm node func io_names_map x :
  bind_io nm node func = inr io_names_map →
  x ∉ take (length (NodeProto.input node)) (FunctionProto.input func) →
  (∀ j actual,
     FunctionProto.output func !! j = Some x →
     NodeProto.output node !! j = Some actual → actual = "") →
  io_names_map !! x = None.
Proof.
  intros Hio Hin Hout.
  destruct (decide (length (NodeProto.input node)
                    ≤ length (FunctionProto.input func))%nat) as [Hli|Hli].
  2:{ unfold bind_io in Hio.
      rewrite bind_inputs_out_of_bounds in Hio by (simpl; lia). done. }
  destruct (decide (length (NodeProto.output node)
                    ≤ length (FunctionProto.output func))%nat) as [Hlo|Hlo].
  2:{ unfold bind_io in Hio. rewrite bind_inputs_zip in Hio by (simpl; lia).
      rewrite bind_outputs_out_of_bounds in Hio by (simpl; lia). done. }
  rewrite bind_io_ok in Hio by done. injection Hio as <-.
  rewrite !foldl_insert_binding_notin.
  - apply lookup_empty.
  - by rewrite fst_zip_take.
  - intros [[f a] [-> [Hne Hfa]%list_elem_of_filter]]%list_elem_of_fmap.
    apply elem_of_zip_inv in Hfa as (j & Hf & Ha). simpl in *.
    apply Hne. unfold nonempty_actual in Hne. simpl. by eapply Hout.
Qed.

(** C3, as stated, fails: the actual output at index 1 is empty, yet its
    formal output [X] is bound, through the input of the same name, and the
    occurrence of [X] in the body becomes the actual input [a], not a
    generated name. *)
Lemma unused_output_bound_as_input :
  NodeProto.output call_without_second_output !! 1%nat = Some ""
  ∧ FunctionProto.output pass_through_function !! 1%nat = Some "X"
  ∧ FunctionExpandHelper plain_registry "0x1" call_without_second_output
      pass_through_function "" empty_graph
    = (append_nodes [NodeProto.mk ["a"] ["c"] None "Relu" "" [] ""] empty_graph,
       inr tt)
  ∧ "a" ≠ InteralTensorNameGenerator "call" "X".
Proof. repeat split; try reflexivity. discriminate. Qed.

(** C3, amended: when the actual output at index [i] is empty and no other
    position binds the name of formal output [i] (it is not among the formal
    inputs the call binds, and where it is declared as a formal output the
    actual is empty), that name has no entry in the map, and every occurrence
    of it among the inputs and outputs of the body appears, at the same
    position of the copied node, as the generated internal name. *)
Theorem empty_output_stays_internal registry address node func node_prefix g
    schema i formal :
  let nm := node_name address node func node_prefix in
  (length (NodeProto.input node) ≤ length (FunctionProto.input func))%nat →
  (length (NodeProto.output node) ≤ length (FunctionProto.output func))%nat →
  domain_version node func ≠ -1 →
  registry (NodeProto.op_type node) (domain_version node func)
    (NodeProto.domain node) = Some schema →
  NodeProto.output node !! i = Some "" →
  FunctionProto.output func !! i = Some formal →
  formal ∉ take (length (NodeProto.input node)) (FunctionProto.input func) →
  (∀ j actual,
     FunctionProto.output func !! j = Some formal →
     NodeProto.output node !! j = Some actual → actual = "") →
  ∃ io_names_map new_nodes,
    bind_io nm node func = inr io_names_map
    ∧ io_names_map !! formal = None
    ∧ FunctionExpandHelper registry address node func node_prefix g
      = (append_nodes new_nodes g, inr tt)
    ∧ length new_nodes = length (FunctionProto.node func)
    ∧ ∀ j function_node new_node,
        FunctionProto.node func !! j = Some function_node →
        new_nodes !! j = Some new_node →
        length (NodeProto.input new_node)
        = length (NodeProto.input function_node)
        ∧ length (NodeProto.output new_node)
          = length (NodeProto.output function_node)
        ∧ (∀ p, NodeProto.input function_node !! p = Some formal →
                NodeProto.input new_node !! p
                = Some (InteralTensorNameGenerator nm formal))
        ∧ (∀ p, NodeProto.output function_node !! p = Some formal →
                NodeProto.output new_node !! p
                = Some (InteralTensorNameGenerator nm formal)).
Proof.
  intros nm Hli Hlo Hdv Hreg Hi Hf Hin Hout.
  pose proof (bind_io_ok nm node func Hli Hlo) as Hio.
  pose proof (bind_io_unbound _ _ _ _ formal Hio Hin Hout) as Hnone.
  eexists _, _. split; [exact Hio|]. split; [exact Hnone|].
  split; [|split].
  - rewrite FunctionExpandHelper_run. cbv zeta. fold nm. rewrite Hio.
    rewrite decide_False by done. rewrite Hreg. done.
  - unfold expanded_body. by rewrite length_fmap.
  - intros j function_node new_node Hj Hnew.
    unfold expanded_body in Hnew. rewrite list_lookup_fmap, Hj in Hnew.
    injection Hnew as <-. repeat split.
    + simpl. by rewrite length_fmap.
    + simpl. by rewrite length_fmap.
    + intros p Hp. erewrite expand_node_input by done.
      by rewrite rename_value_unbound.
    + intros p Hp. erewrite expand_node_output by done.
      by rewrite rename_value_unbound.
Qed.

Lemma empty_output_stays_internal_witness :
  ∃ io_names_map new_nodes,
    bind_io "call" (call_to_F ["a"; "b"] [""]) add_relu_function = inr io_names_map
    ∧ io_names_map !! "Z" = None
    ∧ FunctionExpandHelper plain_registry "0x1" (call_to_F ["a"; "b"] [""])
        add_relu_function "" empty_graph
      = (append_nodes new_nodes empty_graph, inr tt)
    ∧ ∀ new_node, new_nodes !! 1%nat = Some new_node →
        NodeProto.output new_node !! 0%nat = Some "Func_callZ".
Proof.
  destruct (empty_output_stays_internal plain_registry "0x1"
              (call_to_F ["a"; "b"] [""]) add_relu_function "" empty_graph
              (OpSchema.mk ∅) 0%nat "Z")
    as (io_names_map & new_nodes & Hio & Hnone & Hrun & _ & Hbody).
  - simpl. lia.
  - simpl. lia.
  - vm_compute. discriminate.
  - reflexivity.
  - reflexivity.
  - reflexivity.
  - apply (bool_decide_unpack _). vm_compute. exact I.
  - intros [|j] actual; simpl; [congruence|discriminate].
  - exists io_names_map, new_nodes. repeat split; try assumption.
    intros new_node Hnew.
    destruct (Hbody 1%nat (NodeProto.mk ["T"] ["Z"] None "Relu" "" [] "")
                new_node eq_refl Hnew) as (_ & _ & _ & Hout).
    apply (Hout 0%nat). reflexivity.
Defined.

(** ** Generated internal names (C1) *)

(** Each name of a copied node is the bound actual name or a generated one. *)
Lemma expanded_names_classified address node func node_prefix io_names_map
    attr_map new_node y :
  let nm := node_name address node func node_prefix in
  bind_io nm node func = inr io_names_map →
  new_node ∈ expanded_body nm io_names_map attr_map func →
  y ∈ (NodeProto.input new_node ++ NodeProto.output new_node) →
  (∃ x, io_names_map !! x = Some y)
  ∨ y ∈ generated_internal_names address node func node_prefix.
Proof.
  intros nm Hio [fn [-> Hfn]]%list_elem_of_fmap Hy.
  assert (∃ x, x ∈ (NodeProto.input fn ++ NodeProto.output fn)
               ∧ y = rename_value nm io_names_map x) as (x & Hx & ->).
  { simpl in Hy. rewrite <- fmap_app in Hy.
    apply list_elem_of_fmap in Hy as (x & -> & Hx). eauto. }
  unfold rename_value. destruct (io_names_map !! x) as [actual|] eqn:Hlk.
  - left. eauto.
  - right. unfold generated_internal_names. fold nm. rewrite Hio.
    apply list_elem_of_fmap_2, list_elem_of_filter. split; [done|].
    unfold body_value_names. apply list_elem_of_bind. eauto.
Qed.

Lemma append_eq_prefix (s1 s2 x y : string) :
  s1 +:+ x = s2 +:+ y → String.prefix s1 s2 = true ∨ String.prefix s2 s1 = true.
Proof.
  revert s2. induction s1 as [|a s1 IH]; intros s2 Heq.
  - left. by destruct s2.
  - destruct s2 as [|b s2]; [by right|].
    simpl in Heq. injection Heq as -> Heq. simpl.
    destruct (Ascii.ascii_dec b b) as [_|Hne]; [|done]. by apply IH.
Qed.

Lemma InteralTensorNameGenerator_apart nm1 nm2 x y :
  String.prefix nm1 nm2 = false → String.prefix nm2 nm1 = false →
  InteralTensorNameGenerator nm1 x ≠ InteralTensorNameGenerator nm2 y.
Proof.
  intros H12 H21 Heq. unfold InteralTensorNameGenerator in Heq.
  simpl in Heq. injection Heq as Heq.
  change (nm1 +:+ x = nm2 +:+ y) in Heq.
  apply append_eq_prefix in Heq as [Heq|Heq]; congruence.
Qed.

(** Distinct names of one length are not prefixes of each other. *)
Lemma same_length_not_prefix (s1 s2 : string) :
  String.length s1 = String.length s2 → s1 ≠ s2 → String.prefix s1 s2 = false.
Proof.
  revert s2. induction s1 as [|a s1 IH]; intros [|b s2] Hlen Hne; simpl in *;
    try done.
  destruct (Ascii.ascii_dec a b) as [->|Hab]; [|done].
  apply IH; [lia|congruence].
Qed.

Lemma prefix_append_cancel (s t1 t2 : string) :
  String.prefix (s +:+ t1) (s +:+ t2) = String.prefix t1 t2.
Proof.
  induction s as [|a s IH]; simpl; [done|].
  by destruct (Ascii.ascii_dec a a).
Qed.

(** Two unnamed calls to one definition, expanded without a prefix of the
    caller's, at addresses whose texts differ and have one length: neither
    resolved name is a prefix of the other. *)
Lemma unnamed_call_sites_apart address1 address2 node1 node2 func :
  NodeProto.name node1 = None → NodeProto.name node2 = None →
  String.length address1 = String.length address2 → address1 ≠ address2 →
  String.prefix (node_name address1 node1 func "")
    (node_name address2 node2 func "") = false.
Proof.
  intros Hn1 Hn2 Hlen Hne. unfold node_name, uniq_prefix. rewrite Hn1, Hn2.
  simpl. rewrite prefix_append_cancel. by apply same_length_not_prefix.
Qed.

(** C1, as stated, fails: two call sites with different names, expanded one
    after the other into the same graph, both generate [Func_add_1_t], the
    first for the body value [_1_t], the second for [_t]. *)
Lemma generated_names_collide :
  call_add ≠ call_add_1
  ∧ "Func_add_1_t"
      ∈ generated_internal_names "0x1" call_add three_relu_function ""
  ∧ "Func_add_1_t"
      ∈ generated_internal_names "0x2" call_add_1 three_relu_function ""
  ∧ (let g1 := (FunctionExpandHelper plain_registry "0x1" call_add
                  three_relu_function "" empty_graph).1 in
     (FunctionExpandHelper plain_registry "0x2" call_add_1
        three_relu_function "" g1).1)
    = append_nodes
        [NodeProto.mk ["a"] ["Func_add_1_t"] None "Relu" "" [] "";
         NodeProto.mk ["Func_add_1_t"] ["Func_add_t"] None "Relu" "" [] "";
         NodeProto.mk ["Func_add_t"] ["b"] None "Relu" "" [] "";
         NodeProto.mk ["b"] ["Func_add_1_1_t"] None "Relu" "" [] "";
         NodeProto.mk ["Func_add_1_1_t"] ["Func_add_1_t"] None "Relu" "" [] "";
         NodeProto.mk ["Func_add_1_t"] ["c"] None "Relu" "" [] ""]
        empty_graph.
Proof.
  split; [discriminate|].
  split; [|split].
  - apply (bool_decide_unpack _). vm_compute. exact I.
  - apply (bool_decide_unpack _). vm_compute. exact I.
  - reflexivity.
Qed.

(** C1, amended: when neither resolved call-site name (the explicit name of
    the node, else the name of the definition followed by the caller's prefix
    or, that being empty, by the address text) is a prefix of the other, no
    name generated for the first call site is generated for the second, also
    when both call the same definition. *)
Theorem generated_names_disjoint address1 node1 func1 node_prefix1
    address2 node2 func2 node_prefix2 :
  let nm1 := node_name address1 node1 func1 node_prefix1 in
  let nm2 := node_name address2 node2 func2 node_prefix2 in
  String.prefix nm1 nm2 = false →
  String.prefix nm2 nm1 = false →
  ∀ s, s ∈ generated_internal_names address1 node1 func1 node_prefix1 →
       s ∉ generated_internal_names address2 node2 func2 node_prefix2.
Proof.
  intros nm1 nm2 H12 H21 s Hs1 Hs2.
  unfold generated_internal_names in Hs1, Hs2. fold nm1 in Hs1. fold nm2 in Hs2.
  destruct (bind_io nm1 node1 func1) as [?|io1]; [by apply elem_of_nil in Hs1|].
  destruct (bind_io nm2 node2 func2) as [?|io2]; [by apply elem_of_nil in Hs2|].
  apply list_elem_of_fmap in Hs1 as (x & -> & _).
  apply list_elem_of_fmap in Hs2 as (y & Heq & _).
  by apply (InteralTensorNameGenerator_apart nm1 nm2 x y).
Qed.

Lemma generated_names_disjoint_witness :
  "Func_callT"
    ∈ generated_internal_names "0x1" (call_to_F ["a"; "b"] ["c"])
        add_relu_function ""
  ∧ "Func_callT"
      ∉ generated_internal_names "0x2"
          (NodeProto.mk ["c"; "c"] ["d"] (Some "next") "F" "" [] "")
          add_relu_function "".
Proof.
  assert ("Func_callT"
            ∈ generated_internal_names "0x1" (call_to_F ["a"; "b"] ["c"])
                add_relu_function "") as Hin.
  { apply (bool_decide_unpack _). vm_compute. exact I. }
  split; [exact Hin|].
  apply (generated_names_disjoint "0x1" (call_to_F ["a"; "b"] ["c"])
           add_relu_function "" "0x2"
           (NodeProto.mk ["c"; "c"] ["d"] (Some "next") "F" "" [] "")
           add_relu_function "" eq_refl eq_refl "Func_callT" Hin).
Defined.

(** ** Attribute references (C4, C5) *)

Lemma list_omap_app {A B} (f : A → option B) (l1 l2 : list A) :
  omap f (l1 ++ l2) = (omap f l1 ++ omap f l2).
Proof.
  induction l1 as [|x l1 IH]; csimpl; [done|].
  destruct (f x); csimpl; by rewrite IH.
Qed.

(** The attributes of a copied node around one attribute of the body node. *)
Lemma expand_node_attribute nm io_names_map attr_map function_node
    before attr after :
  NodeProto.attribute function_node = (before ++ attr :: after) →
  NodeProto.attribute (expand_node nm io_names_map attr_map function_node)
  = (omap (expand_attribute attr_map) before
     ++ option_list (expand_attribute attr_map attr)
     ++ omap (expand_attribute attr_map) after).
Proof.
  intros Hattr. simpl. rewrite Hattr, list_omap_app. csimpl.
  by destruct (expand_attribute attr_map attr).
Qed.

(** A run whose bindings, domain version and schema are found. *)
Lemma FunctionExpandHelper_ok registry address node func node_prefix g
    io_names_map schema :
  let nm := node_name address node func node_prefix in
  bind_io nm node func = inr io_names_map →
  domain_version node func ≠ -1 →
  registry (NodeProto.op_type node) (domain_version node func)
    (NodeProto.domain node) = Some schema →
  FunctionExpandHelper registry address node func node_prefix g
  = (append_nodes
       (expanded_body nm io_names_map (resolved_attr_map node schema) func) g,
     inr tt).
Proof.
  intros nm Hio Hdv Hreg. rewrite FunctionExpandHelper_run. cbv zeta.
  fold nm. rewrite Hio, decide_False by done. by rewrite Hreg.
Qed.

(** C4: a body attribute that refers to a name without an entry in the
    resolved attribute mapping leaves no attribute in the copied node, whose
    attributes are those the attributes before and after it give; the
    expansion succeeds all the same. *)
Theorem absent_reference_omitted registry address node func node_prefix g
    io_names_map schema j function_node before attr ref after :
  let nm := node_name address node func node_prefix in
  let attr_map := resolved_attr_map node schema in
  bind_io nm node func = inr io_names_map →
  domain_version node func ≠ -1 →
  registry (NodeProto.op_type node) (domain_version node func)
    (NodeProto.domain node) = Some schema →
  FunctionProto.node func !! j = Some function_node →
  NodeProto.attribute function_node = (before ++ attr :: after) →
  AttributeProto.ref_attr_name attr = Some ref →
  attr_map !! ref = None →
  ∃ new_nodes new_node,
    FunctionExpandHelper registry address node func node_prefix g
    = (append_nodes new_nodes g, inr tt)
    ∧ new_nodes !! j = Some new_node
    ∧ NodeProto.op_type new_node = NodeProto.op_type function_node
    ∧ NodeProto.attribute new_node
      = (omap (expand_attribute attr_map) before
         ++ omap (expand_attribute attr_map) after).
Proof.
  intros nm attr_map Hio Hdv Hreg Hj Hattr Href Hnone.
  exists (expanded_body nm io_names_map attr_map func),
         (expand_node nm io_names_map attr_map function_node).
  split; [by apply FunctionExpandHelper_ok|].
  split; [unfold expanded_body; by rewrite list_lookup_fmap, Hj|].
  split; [done|].
  rewrite (expand_node_attribute _ _ _ _ _ _ _ Hattr).
  unfold expand_attribute at 2. by rewrite Href, Hnone.
Qed.

Lemma absent_reference_omitted_witness :
  ∃ new_nodes new_node,
    FunctionExpandHelper scale_registry "0x1" call_to_S scale_function ""
      empty_graph
    = (append_nodes new_nodes empty_graph, inr tt)
    ∧ new_nodes !! 0%nat = Some new_node
    ∧ NodeProto.op_type new_node = "Scale"
    ∧ NodeProto.attribute new_node
      = [int_attribute "scale" 2; int_attribute "axis" 1].
Proof.
  apply (absent_reference_omitted scale_registry "0x1" call_to_S scale_function
           "" empty_graph {[ "X" := "a"; "Y" := "b" ]} scale_schema 0%nat
           (NodeProto.mk ["X"] ["Y"] None "Scale" ""
              [reference_attribute "scale" "alpha";
               reference_attribute "bias" "gamma";
               int_attribute "axis" 1] "")
           [reference_attribute "scale" "alpha"]
           (reference_attribute "bias" "gamma") "gamma"
           [int_attribute "axis" 1]).
  - reflexivity.
  - vm_compute. discriminate.
  - reflexivity.
  - reflexivity.
  - reflexivity.
  - reflexivity.
  - reflexivity.
Defined.

(** C5: an attribute name the schema declares and the call site does not
    give is entered in the resolved attribute mapping with the schema's
    default value, and a body attribute that refers to it becomes, in the
    copied node and at its place, that default under the name of the body
    attribute: its value fields and its reference field are those of the
    default, so it is a literal whenever the default is. *)
Theorem default_reference_resolved registry address node func node_prefix g
    io_names_map schema ref declared j function_node before attr after :
  let nm := node_name address node func node_prefix in
  let attr_map := resolved_attr_map node schema in
  let default := OpSchema.default_value declared in
  bind_io nm node func = inr io_names_map →
  domain_version node func ≠ -1 →
  registry (NodeProto.op_type node) (domain_version node func)
    (NodeProto.domain node) = Some schema →
  OpSchema.attributes schema !! ref = Some declared →
  ref ∉ AttributeProto.name <$> NodeProto.attribute node →
  FunctionProto.node func !! j = Some function_node →
  NodeProto.attribute function_node = (before ++ attr :: after) →
  AttributeProto.ref_attr_name attr = Some ref →
  attr_map !! ref = Some default
  ∧ ∃ new_nodes new_node resolved,
      FunctionExpandHelper registry address node func node_prefix g
      = (append_nodes new_nodes g, inr tt)
      ∧ new_nodes !! j = Some new_node
      ∧ NodeProto.attribute new_node
        = (omap (expand_attribute attr_map) before
           ++ resolved :: omap (expand_attribute attr_map) after)
      ∧ resolved = AttributeProto.set_name (AttributeProto.name attr) default
      ∧ AttributeProto.name resolved = AttributeProto.name attr
      ∧ AttributeProto.ref_attr_name resolved
        = AttributeProto.ref_attr_name default
      ∧ AttributeProto.type resolved = AttributeProto.type default
      ∧ AttributeProto.i resolved = AttributeProto.i default
      ∧ AttributeProto.s resolved = AttributeProto.s default
      ∧ AttributeProto.tensor resolved = AttributeProto.tensor default
      ∧ AttributeProto.ints resolved = AttributeProto.ints default
      ∧ AttributeProto.strings resolved = AttributeProto.strings default.
Proof.
  intros nm attr_map default Hio Hdv Hreg Hdecl Hnode Hj Hattr Href.
  assert (attr_map !! ref = Some default) as Hmap.
  { unfold attr_map. rewrite resolved_attr_map_lookup.
    apply node_attr_map_None in Hnode. by rewrite Hnode, Hdecl. }
  split; [exact Hmap|].
  exists (expanded_body nm io_names_map attr_map func),
         (expand_node nm io_names_map attr_map function_node),
         (AttributeProto.set_name (AttributeProto.name attr) default).
  split; [by apply FunctionExpandHelper_ok|].
  split; [unfold expanded_body; by rewrite list_lookup_fmap, Hj|].
  split; [|by repeat split].
  rewrite (expand_node_attribute _ _ _ _ _ _ _ Hattr).
  unfold expand_attribute at 2. by rewrite Href, Hmap.
Qed.

Lemma default_reference_resolved_witness :
  resolved_attr_map call_to_S scale_schema !! "alpha"
  = Some (int_attribute "alpha" 2)
  ∧ ∃ new_nodes new_node,
      FunctionExpandHelper scale_registry "0x1" call_to_S scale_function ""
        empty_graph
      = (append_nodes new_nodes empty_graph, inr tt)
      ∧ new_nodes !! 0%nat = Some new_node
      ∧ NodeProto.attribute new_node
        = [int_attribute "scale" 2; int_attribute "axis" 1].
Proof.
  destruct (default_reference_resolved scale_registry "0x1" call_to_S
              scale_function "" empty_graph {[ "X" := "a"; "Y" := "b" ]}
              scale_schema "alpha"
              (OpSchema.mkAttribute "alpha" false (int_attribute "alpha" 2))
              0%nat
              (NodeProto.mk ["X"] ["Y"] None "Scale" ""
                 [reference_attribute "scale" "alpha";
                  reference_attribute "bias" "gamma";
                  int_attribute "axis" 1] "")
              []
              (reference_attribute "scale" "alpha")
              [reference_attribute "bias" "gamma"; int_attribute "axis" 1])
    as (Hmap & new_nodes & new_node & resolved & Hrun & Hnew & Hattrs & -> & _).
  - reflexivity.
  - vm_compute. discriminate.
  - reflexivity.
  - reflexivity.
  - apply not_elem_of_nil.
  - reflexivity.
  - reflexivity.
  - reflexivity.
  - split; [exact Hmap|]. exists new_nodes, new_node.
    split; [exact Hrun|]. split; [exact Hnew|]. exact Hattrs.
Defined.

(** ** Domain-version resolution (C6, C10) *)

Lemma scan_opset_import_no_match dom imports dv :
  (∀ opset_import, opset_import ∈ imports →
                   OperatorSetIdProto.domain opset_import ≠ dom) →
  scan_opset_import dom imports dv = dv.
Proof.
  revert dv. induction imports as [|imp imports IH]; intros dv Hno; [done|].
  unfold scan_opset_import in *. simpl.
  rewrite decide_False by (apply Hno; left).
  apply IH. intros i Hi. apply Hno. by right.
Qed.

Lemma scan_opset_import_last_match dom before opset_import after dv :
  OperatorSetIdProto.domain opset_import = dom →
  (∀ later, later ∈ after → OperatorSetIdProto.domain later ≠ dom) →
  scan_opset_import dom (before ++ opset_import :: after) dv
  = static_cast_int (OperatorSetIdProto.version opset_import).
Proof.
  intros Hdom Hafter. unfold scan_opset_import. rewrite foldl_app. simpl.
  rewrite decide_True by done. by apply scan_opset_import_no_match.
Qed.

Lemma static_cast_int_in_range z :
  (- 2 ^ 31 ≤ z < 2 ^ 31)%Z → static_cast_int z = z.
Proof.
  intros Hz. unfold static_cast_int. rewrite Z.mod_small; lia.
Qed.

(** The run from the domain version on, the bindings made. *)
Lemma FunctionExpandHelper_resolved registry address node func node_prefix g
    io_names_map :
  let nm := node_name address node func node_prefix in
  bind_io nm node func = inr io_names_map →
  FunctionExpandHelper registry address node func node_prefix g
  = if decide (domain_version node func = -1)
    then (g, inl (unresolved_opset_import (NodeProto.domain node)))
    else
      match registry (NodeProto.op_type node) (domain_version node func)
              (NodeProto.domain node) with
      | None => (g, inl null_schema_dereference)
      | Some schema =>
          (append_nodes
             (expanded_body nm io_names_map (resolved_attr_map node schema) func)
             g,
           inr tt)
      end.
Proof.
  intros nm Hio. rewrite FunctionExpandHelper_run. cbv zeta. fold nm.
  by rewrite Hio.
Qed.

(** C6, as stated, fails: the import of the definition matches the domain of
    the call and the registry has a schema for every version, yet the
    expansion stops with the unresolved-import error, -1 being the mark of
    no match. *)
Lemma matching_import_unresolved :
  OperatorSetIdProto.mk "" (-1)
    ∈ FunctionProto.opset_import minus_one_import_function
  ∧ OperatorSetIdProto.domain (OperatorSetIdProto.mk "" (-1))
    = NodeProto.domain (call_to_F ["a"; "b"] ["c"])
  ∧ FunctionExpandHelper plain_registry "0x1" (call_to_F ["a"; "b"] ["c"])
      minus_one_import_function "" empty_graph
    = (empty_graph,
       inl (runtime_error
              "No opset import registered for domain '' in function proto")).
Proof. split; [left|]. split; reflexivity. Qed.

(** C6, amended: the inputs and outputs of the call bound, a call whose
    domain no opset import of the definition matches stops with the
    unresolved-import error, the destination as it was; when imports match,
    the version of the last of them, converted to [int], is the version of the
    schema lookup, unless the converted version is -1, which stops the
    expansion with the same error. *)
Theorem opset_import_resolution registry address node func node_prefix g
    io_names_map :
  let nm := node_name address node func node_prefix in
  let unresolved :=
    runtime_error
      (("No opset import registered for domain '" +:+ NodeProto.domain node)
         +:+ "' in function proto") in
  bind_io nm node func = inr io_names_map →
  ((∀ opset_import, opset_import ∈ FunctionProto.opset_import func →
      OperatorSetIdProto.domain opset_import ≠ NodeProto.domain node) →
   FunctionExpandHelper registry address node func node_prefix g
   = (g, inl unresolved))
  ∧ ∀ before opset_import after,
      FunctionProto.opset_import func = before ++ opset_import :: after →
      OperatorSetIdProto.domain opset_import = NodeProto.domain node →
      (∀ later, later ∈ after →
                OperatorSetIdProto.domain later ≠ NodeProto.domain node) →
      let version := static_cast_int (OperatorSetIdProto.version opset_import) in
      ((- 2 ^ 31 ≤ OperatorSetIdProto.version opset_import < 2 ^ 31)%Z →
       version = OperatorSetIdProto.version opset_import)
      ∧ (version = -1 →
         FunctionExpandHelper registry address node func node_prefix g
         = (g, inl unresolved))
      ∧ (version ≠ -1 →
         FunctionExpandHelper registry address node func node_prefix g
         = match registry (NodeProto.op_type node) version
                   (NodeProto.domain node) with
           | None => (g, inl null_schema_dereference)
           | Some schema =>
               (append_nodes
                  (expanded_body nm io_names_map
                     (resolved_attr_map node schema) func) g,
                inr tt)
           end).
Proof.
  intros nm unresolved Hio. split.
  - intros Hno. rewrite (FunctionExpandHelper_resolved _ _ _ _ _ _ _ Hio).
    unfold domain_version. rewrite scan_opset_import_no_match by done.
    by rewrite decide_True.
  - intros before opset_import after Himports Hdom Hafter version.
    assert (domain_version node func = version) as Hdv.
    { unfold domain_version. rewrite Himports.
      by apply scan_opset_import_last_match. }
    split; [apply static_cast_int_in_range|].
    rewrite (FunctionExpandHelper_resolved _ _ _ _ _ _ _ Hio), Hdv.
    split; intros Hv; [by rewrite decide_True|by rewrite decide_False].
Qed.

Lemma opset_import_resolution_witness :
  FunctionExpandHelper plain_registry "0x1" call_in_custom_domain
    add_relu_function "" empty_graph
  = (empty_graph,
     inl (runtime_error
            "No opset import registered for domain 'custom' in function proto"))
  ∧ FunctionExpandHelper scale_registry "0x1" call_to_S scale_function ""
      empty_graph
    = match scale_registry "S" 14 "" with
      | None => (empty_graph, inl null_schema_dereference)
      | Some schema =>
          (append_nodes
             (expanded_body "call" {[ "X" := "a"; "Y" := "b" ]}
                (resolved_attr_map call_to_S schema) scale_function)
             empty_graph,
           inr tt)
      end.
Proof.
  split.
  - apply (proj1 (opset_import_resolution plain_registry "0x1"
                    call_in_custom_domain add_relu_function "" empty_graph
                    {[ "X" := "a"; "Y" := "b"; "Z" := "c" ]} eq_refl)).
    intros opset_import [->|Hin%elem_of_nil]%elem_of_cons; [discriminate|done].
  - destruct (proj2 (opset_import_resolution scale_registry "0x1" call_to_S
                       scale_function "" empty_graph
                       {[ "X" := "a"; "Y" := "b" ]} eq_refl)
                [] (OperatorSetIdProto.mk "" 14) [])
      as (_ & _ & Hlookup).
    + reflexivity.
    + reflexivity.
    + intros later Hin. by apply elem_of_nil in Hin.
    + apply Hlookup. vm_compute. discriminate.
Defined.

(** C10, as stated, fails: of two imports that match the domain of the call,
    the later one carries -1; no schema lookup is made with that version (nor
    with the earlier 14), the expansion stops with the unresolved-import
    error. *)
Lemma last_import_minus_one_no_lookup :
  FunctionProto.opset_import two_import_function
  = [OperatorSetIdProto.mk "" 14; OperatorSetIdProto.mk "" (-1)]
  ∧ NodeProto.domain (call_to_F ["a"; "b"] ["c"]) = ""
  ∧ FunctionExpandHelper plain_registry "0x1" (call_to_F ["a"; "b"] ["c"])
      two_import_function "" empty_graph
    = (empty_graph,
       inl (runtime_error
              "No opset import registered for domain '' in function proto")).
Proof. repeat split. Qed.

(** C10, amended: when several opset imports of the definition match the
    domain of the call, the scan ends on the version of the last of them in
    declaration order, converted to [int], whatever the earlier ones carry;
    that value is the version of the schema lookup unless it is -1, which
    stops the expansion with the unresolved-import error. *)
Theorem last_matching_import_wins registry address node func node_prefix g
    io_names_map before first between last after :
  let nm := node_name address node func node_prefix in
  let version := static_cast_int (OperatorSetIdProto.version last) in
  bind_io nm node func = inr io_names_map →
  FunctionProto.opset_import func
  = before ++ first :: between ++ last :: after →
  OperatorSetIdProto.domain first = NodeProto.domain node →
  OperatorSetIdProto.domain last = NodeProto.domain node →
  (∀ later, later ∈ after →
            OperatorSetIdProto.domain later ≠ NodeProto.domain node) →
  domain_version node func = version
  ∧ ((- 2 ^ 31 ≤ OperatorSetIdProto.version last < 2 ^ 31)%Z →
     version = OperatorSetIdProto.version last)
  ∧ FunctionExpandHelper registry address node func node_prefix g
    = if decide (version = -1)
      then (g, inl (runtime_error
                      (("No opset import registered for domain '"
                          +:+ NodeProto.domain node)
                         +:+ "' in function proto")))
      else
        match registry (NodeProto.op_type node) version
                (NodeProto.domain node) with
        | None => (g, inl null_schema_dereference)
        | Some schema =>
            (append_nodes
               (expanded_body nm io_names_map
                  (resolved_attr_map node schema) func) g,
             inr tt)
        end.
Proof.
  intros nm version Hio Himports _ Hlast Hafter.
  assert (domain_version node func = version) as Hdv.
  { unfold domain_version. rewrite Himports.
    replace (before ++ first :: between ++ last :: after)
      with ((before ++ first :: between) ++ last :: after)
      by (by rewrite <- app_assoc).
    by apply scan_opset_import_last_match. }
  split; [exact Hdv|]. split; [apply static_cast_int_in_range|].
  by rewrite (FunctionExpandHelper_resolved _ _ _ _ _ _ _ Hio), Hdv.
Qed.

Lemma last_matching_import_wins_witness :
  domain_version (call_to_F ["a"; "b"] ["c"]) reimported_function = 14
  ∧ FunctionExpandHelper version_14_registry "0x1" (call_to_F ["a"; "b"] ["c"])
      reimported_function "" empty_graph
    = (append_nodes
         [NodeProto.mk ["a"; "b"] ["Func_callT"] None "Add" "" [] "";
          NodeProto.mk ["Func_callT"] ["c"] None "Relu" "" [] ""]
         empty_graph,
       inr tt).
Proof.
  destruct (last_matching_import_wins version_14_registry "0x1"
              (call_to_F ["a"; "b"] ["c"]) reimported_function "" empty_graph
              {[ "X" := "a"; "Y" := "b"; "Z" := "c" ]}
              [] (OperatorSetIdProto.mk "" 13) [OperatorSetIdProto.mk "other" 2]
              (OperatorSetIdProto.mk "" 14) [])
    as (Hdv & _ & Hrun).
  - reflexivity.
  - reflexivity.
  - reflexivity.
  - reflexivity.
  - intros later Hin. by apply elem_of_nil in Hin.
  - split; [exact Hdv|]. rewrite Hrun. reflexivity.
Defined.

(** ** The graph splicer (C7) *)

Lemma append_function_nodes_nil funProto :
  append_function_nodes [] funProto = funProto.
Proof. destruct funProto. unfold append_function_nodes. simpl. by rewrite app_nil_r. Qed.

Lemma append_function_nodes_add_node n new_nodes funProto :
  append_function_nodes new_nodes (FunctionProto.add_node n funProto)
  = append_function_nodes (n :: new_nodes) funProto.
Proof.
  unfold append_function_nodes, FunctionProto.add_node. simpl.
  by rewrite <- app_assoc.
Qed.

Lemma append_function_nodes_app new1 new2 funProto :
  append_function_nodes new2 (append_function_nodes new1 funProto)
  = append_function_nodes (new1 ++ new2) funProto.
Proof. unfold append_function_nodes. simpl. by rewrite <- app_assoc. Qed.

Section splicer.
Context {R : Type} `{Renamer R}.

Lemma foldl_add_initializer initializers : ∀ (renamer : R) funProto,
  foldl add_initializer (renamer, funProto) initializers
  = (renamer_after_initializers initializers renamer,
     append_function_nodes
       (zip_with constant_node (minted_names initializers renamer) initializers)
       funProto).
Proof.
  induction initializers as [|initializer rest IH]; intros renamer funProto.
  - simpl. by rewrite append_function_nodes_nil.
  - simpl. unfold add_initializer at 2. simpl.
    destruct (BindToUniqueName (TensorProto.name initializer) renamer)
      as [const_name renamer'] eqn:Hbind.
    rewrite IH. simpl.
    unfold Const. by rewrite append_function_nodes_add_node.
Qed.

Lemma foldl_add_renamed_node nodes : ∀ (renamer : R) funProto,
  (foldl add_renamed_node (renamer, funProto) nodes).2
  = append_function_nodes (renamed_nodes nodes renamer) funProto.
Proof.
  induction nodes as [|node rest IH]; intros renamer funProto.
  - simpl. by rewrite append_function_nodes_nil.
  - simpl. unfold add_renamed_node at 2. simpl.
    destruct (RenameNode node renamer) as [new_node renamer'].
    by rewrite IH, append_function_nodes_add_node.
Qed.

Lemma length_minted_names initializers : ∀ renamer : R,
  length (minted_names initializers renamer) = length initializers.
Proof.
  induction initializers as [|initializer rest IH]; intros renamer; simpl.
  - done.
  - destruct (BindToUniqueName _ renamer) as [const_name renamer']. simpl.
    by rewrite IH.
Qed.

Lemma length_renamed_nodes nodes : ∀ renamer : R,
  length (renamed_nodes nodes renamer) = length nodes.
Proof.
  induction nodes as [|node rest IH]; intros renamer; simpl.
  - done.
  - destruct (RenameNode node renamer) as [new_node renamer']. simpl.
    by rewrite IH.
Qed.

(** Minted names are new to the renamer and to each other. *)
Lemma minted_names_fresh initializers : ∀ renamer : R,
  NoDup (minted_names initializers renamer)
  ∧ ∀ name, name ∈ minted_names initializers renamer →
            name ∉ known_names renamer.
Proof.
  induction initializers as [|initializer rest IH]; intros renamer; simpl.
  - split; [constructor|]. intros name Hin. by apply elem_of_nil in Hin.
  - pose proof (BindToUniqueName_fresh renamer (TensorProto.name initializer))
      as Hfresh.
    pose proof (BindToUniqueName_known renamer (TensorProto.name initializer))
      as Hknown.
    destruct (BindToUniqueName _ renamer) as [const_name renamer'].
    simpl in *. destruct (IH renamer') as [Hnd Hnew]. split.
    + constructor; [|done]. intros Hin. apply Hnew in Hin.
      rewrite Hknown in Hin. apply Hin, elem_of_union_l.
      by apply elem_of_singleton.
    + intros name [->|Hin]%elem_of_cons; [done|].
      apply Hnew in Hin. rewrite Hknown in Hin. intros Hk.
      by apply Hin, elem_of_union_r.
Qed.

(** The [i]-th minted name is what the [i]-th initializer's name is bound to
    once its step of the loop is done. *)
Lemma minted_names_bound initializers : ∀ (renamer : R) i initializer,
  initializers !! i = Some initializer →
  ∃ const_name,
    minted_names initializers renamer !! i = Some const_name
    ∧ bound (renamer_after_initializers (take (S i) initializers) renamer)
        (TensorProto.name initializer)
      = Some const_name.
Proof.
  induction initializers as [|first rest IH]; intros renamer i initializer Hi.
  - done.
  - pose proof (BindToUniqueName_bound renamer (TensorProto.name first))
      as Hbound.
    simpl. unfold renamer_after_initializers. simpl.
    destruct (BindToUniqueName _ renamer) as [const_name renamer'].
    simpl in *. destruct i as [|i].
    + injection Hi as <-. exists const_name. rewrite take_0. by simpl.
    + simpl in Hi. destruct (IH renamer' i initializer Hi) as (n & Hn & Hb).
      exists n. by split.
Qed.
End splicer.

(** C7: the nodes of the function after a splice are its nodes before, then
    one constant-producing record per initializer, in initializer order, then
    the renamed copies of the body nodes in their order.  The output name of
    the [i]-th constant record is the name [BindToUniqueName] returned for the
    [i]-th initializer: new to the renamer, different from the other minted
    names, and the binding of the initializer's original name once minted. *)
Theorem constants_precede_body {R : Type} `{Renamer R}
    (outputs : list string) (graph : GraphProto.t) (inputs : list string)
    (prefix : string) (funProto : FunctionProto.t) :
  let renamer := bound_renamer outputs graph inputs prefix in
  let initializers := GraphProto.initializer graph in
  let const_names := minted_names initializers renamer in
  let body := renamed_nodes (GraphProto.node graph)
                (renamer_after_initializers initializers renamer) in
  FunctionProto.node (AddInlinedCall outputs graph inputs prefix funProto)
  = FunctionProto.node funProto
    ++ zip_with constant_node const_names initializers ++ body
  ∧ length const_names = length initializers
  ∧ length body = length (GraphProto.node graph)
  ∧ NoDup const_names
  ∧ (∀ name, name ∈ const_names → name ∉ known_names renamer)
  ∧ ∀ i initializer,
      initializers !! i = Some initializer →
      ∃ const_name,
        const_names !! i = Some const_name
        ∧ zip_with constant_node const_names initializers !! i
          = Some (NodeProto.mk [] [const_name] None "Constant" ""
                    [value_attribute initializer] "")
        ∧ bound (renamer_after_initializers (take (S i) initializers) renamer)
            (TensorProto.name initializer)
          = Some const_name.
Proof.
  intros renamer initializers const_names body.
  split; [|split; [|split; [|split; [|split]]]].
  - unfold AddInlinedCall. fold renamer initializers.
    rewrite foldl_add_initializer, foldl_add_renamed_node.
    by rewrite append_function_nodes_app.
  - apply length_minted_names.
  - apply length_renamed_nodes.
  - apply minted_names_fresh.
  - apply minted_names_fresh.
  - intros i initializer Hi.
    destruct (minted_names_bound initializers renamer i initializer Hi)
      as (const_name & Hname & Hbound).
    exists const_name. split; [done|]. split; [|done].
    apply lookup_zip_with_Some. by exists const_name, initializer.
Qed.

Example splice_matmul :
  AddInlinedCall (R := PrefixRenamer.t) ["output0"] matmul_graph ["input0"]
    "p1_" empty_function
  = append_function_nodes
      [constant_node "p1_W" weight;
       NodeProto.mk ["input0"; "p1_W"] ["output0"] None "MatMul" "" [] ""]
      empty_function.
Proof. vm_compute. reflexivity. Qed.

(** ** Frame (C8) *)

(** C8: an expansion leaves the destination graph with new nodes appended,
    none when it fails, and a splice leaves the function under construction
    with new nodes appended: the nodes already there and every other field
    stay as they were.  The call-site node, the function definition and the
    spliced graph are passed by reference to const; in the embedding they are
    arguments, and no computation returns a changed copy of them. *)
Theorem only_appends_nodes :
  (∀ registry address node func node_prefix g,
     ∃ new_nodes,
       (FunctionExpandHelper registry address node func node_prefix g).1
       = GraphProto.mk (GraphProto.node g ++ new_nodes) (GraphProto.name g)
           (GraphProto.initializer g) (GraphProto.input g) (GraphProto.output g)
       ∧ ∀ e,
           (FunctionExpandHelper registry address node func node_prefix g).2
           = inl e →
           new_nodes = [])
  ∧ ∀ (R : Type) (renamer : Renamer R) outputs graph inputs prefix funProto,
      ∃ new_nodes,
        AddInlinedCall outputs graph inputs prefix funProto
        = FunctionProto.mk (FunctionProto.name funProto)
            (FunctionProto.input funProto) (FunctionProto.output funProto)
            (FunctionProto.attribute funProto)
            (FunctionProto.node funProto ++ new_nodes)
            (FunctionProto.opset_import funProto)
            (FunctionProto.domain funProto).
Proof.
  split.
  - intros registry address node func node_prefix g.
    rewrite FunctionExpandHelper_run. cbv zeta.
    destruct (bind_io _ node func) as [e|io_names_map].
    { exists []. split; [symmetry; apply append_nodes_nil|done]. }
    destruct (decide (domain_version node func = -1)).
    { exists []. split; [symmetry; apply append_nodes_nil|done]. }
    destruct (registry _ _ _) as [schema|].
    + eexists. split; [reflexivity|]. intros e He. discriminate He.
    + exists []. split; [symmetry; apply append_nodes_nil|done].
  - intros R renamer outputs graph inputs prefix funProto.
    unfold AddInlinedCall.
    rewrite foldl_add_initializer, foldl_add_renamed_node.
    rewrite append_function_nodes_app. eexists. reflexivity.
Qed.

(** ** The axes of a Constant input (C9) *)

Lemma raw_data_ok_false raw_data :
  raw_data = [] ∨ Z.of_nat (length raw_data) mod 8 ≠ 0 →
  raw_data_ok raw_data = false.
Proof.
  intros [->|Hmod]; unfold raw_data_ok.
  - done.
  - rewrite (bool_decide_eq_false_2 (_ mod 8 = 0)) by done.
    by rewrite andb_false_r.
Qed.

Lemma raw_data_ok_true raw_data :
  raw_data ≠ [] → Z.of_nat (length raw_data) mod 8 = 0 →
  raw_data_ok raw_data = true.
Proof.
  intros Hne Hmod. unfold raw_data_ok.
  by rewrite bool_decide_eq_false_2, bool_decide_eq_true_2.
Qed.

(** C9, as stated, fails: a tensor with a non-empty int64 list is not in the
    failing case, and its axes are that list, not its raw bytes, of which
    there are none; and with the int64 list empty and sixteen raw bytes, two
    [int64_t] values, the axes are the one value the declared element count
    asks for. *)
Lemma axes_not_the_raw_bytes :
  (Tensor.int64s typed_tensor ≠ []
   ∧ reinterpret_int64 (length (Tensor.raw typed_tensor) / 8)
       (Tensor.raw typed_tensor) = []
   ∧ adapt_axes size_from_dim_product None [] (kConstant typed_tensor)
     = axes_set [3])
  ∧ (Tensor.int64s one_element_tensor = []
     ∧ raw_data_ok (Tensor.raw one_element_tensor) = true
     ∧ reinterpret_int64 (length (Tensor.raw one_element_tensor) / 8)
         (Tensor.raw one_element_tensor) = [1; 2]
     ∧ adapt_axes size_from_dim_product None [] (kConstant one_element_tensor)
       = axes_set [1]).
Proof. repeat split. discriminate. Qed.

(** C9, amended: for a Constant input whose int64 list is empty, raw data
    that are empty or whose byte size is not a multiple of 8 fail the
    assertion; otherwise the axes are the first [size_from_dim(0)] values of
    the raw bytes read as [int64_t], all of them when that count is the byte
    size divided by 8 (the count within the buffer).  A non-empty int64 list
    is the axes as it is. *)
Theorem constant_axes size_from_dim axes initializers value :
  let raw_data := Tensor.raw value in
  let n := size_from_dim value 0 in
  (Tensor.int64s value = [] →
   raw_data = [] ∨ Z.of_nat (length raw_data) mod 8 ≠ 0 →
   adapt_axes size_from_dim axes initializers (kConstant value)
   = assert_error "Raw Data must be non-empty and size must be a multiple of 8")
  ∧ (Tensor.int64s value = [] →
     raw_data ≠ [] → Z.of_nat (length raw_data) mod 8 = 0 →
     (0 ≤ n ≤ Z.of_nat (length raw_data) / 8)%Z →
     adapt_axes size_from_dim axes initializers (kConstant value)
     = axes_set (reinterpret_int64 (Z.to_nat n) raw_data)
     ∧ (n = Z.of_nat (length raw_data) / 8 →
        adapt_axes size_from_dim axes initializers (kConstant value)
        = axes_set (reinterpret_int64 (length raw_data / 8)%nat raw_data)))
  ∧ (Tensor.int64s value ≠ [] →
     adapt_axes size_from_dim axes initializers (kConstant value)
     = axes_set (Tensor.int64s value)).
Proof.
  intros raw_data n. simpl. unfold axes_of_constant. fold raw_data n.
  split; [|split].
  - intros Hint Hraw. rewrite bool_decide_eq_true_2 by done.
    by rewrite raw_data_ok_false.
  - intros Hint Hne Hmod Hn. rewrite bool_decide_eq_true_2 by done.
    rewrite raw_data_ok_true by done.
    rewrite bool_decide_eq_true_2 by done. split; [done|].
    intros ->. do 2 f_equal.
    rewrite Z2Nat.inj_div, Nat2Z.id by lia. done.
  - intros Hint. by rewrite bool_decide_eq_false_2.
Qed.

Lemma constant_axes_witness :
  adapt_axes size_from_dim_product None []
    (kConstant (Tensor.mk "axes" [1] [] three_bytes))
  = assert_error "Raw Data must be non-empty and size must be a multiple of 8"
  ∧ adapt_axes size_from_dim_product None []
      (kConstant (Tensor.mk "axes" [1] [] eight_bytes))
    = axes_set [-2]
  ∧ adapt_axes size_from_dim_product None [] (kConstant typed_tensor)
    = axes_set [3].
Proof.
  split; [|split].
  - apply (proj1 (constant_axes size_from_dim_product None []
                    (Tensor.mk "axes" [1] [] three_bytes))).
    + reflexivity.
    + right. vm_compute. discriminate.
  - destruct (proj1 (proj2 (constant_axes size_from_dim_product None []
                              (Tensor.mk "axes" [1] [] eight_bytes))))
      as [Haxes _].
    + reflexivity.
    + discriminate.
    + reflexivity.
    + vm_compute. split; discriminate.
    + exact Haxes.
  - apply (proj2 (proj2 (constant_axes size_from_dim_product None []
                           typed_tensor))).
    discriminate.
Defined.

(** * Further properties of the expansion *)

Lemma bind_io_arity nm node func :
  (length (NodeProto.input node) ≤ length (FunctionProto.input func))%nat
  ∧ (length (NodeProto.output node) ≤ length (FunctionProto.output func))%nat
  ↔ ∃ io_names_map, bind_io nm node func = inr io_names_map.
Proof.
  split.
  - intros [Hin Hout]. eexists. by apply bind_io_ok.
  - intros [io Hio]. unfold bind_io in Hio.
    destruct (decide (length (NodeProto.input node)
                      ≤ length (FunctionProto.input func))%nat) as [Hli|Hli].
    2:{ rewrite bind_inputs_out_of_bounds in Hio by (simpl; lia). done. }
    split; [done|]. rewrite bind_inputs_zip in Hio by (simpl; lia).
    destruct (decide (length (NodeProto.output node)
                      ≤ length (FunctionProto.output func))%nat) as [Hlo|Hlo];
      [done|].
    rewrite bind_outputs_out_of_bounds in Hio by (simpl; lia). done.
Qed.

(** X1: an expansion succeeds exactly when the call has no more inputs and no
    more outputs than the definition has formal ones, the scan of the opset
    imports ends on a version other than -1, and the registry has a schema for
    the operator at that version. *)
Theorem expansion_succeeds_iff registry address node func node_prefix g :
  (FunctionExpandHelper registry address node func node_prefix g).2 = inr tt
  ↔ (length (NodeProto.input node) ≤ length (FunctionProto.input func))%nat
    ∧ (length (NodeProto.output node) ≤ length (FunctionProto.output func))%nat
    ∧ domain_version node func ≠ -1
    ∧ is_Some (registry (NodeProto.op_type node) (domain_version node func)
                 (NodeProto.domain node)).
Proof.
  rewrite FunctionExpandHelper_run. cbv zeta.
  set (nm := node_name address node func node_prefix).
  pose proof (bind_io_arity nm node func) as Harity.
  destruct (bind_io nm node func) as [e|io] eqn:Hio.
  - split; [done|]. intros (Hin & Hout & _).
    destruct (proj1 Harity (conj Hin Hout)) as [io Hio']. done.
  - assert ((length (NodeProto.input node)
             ≤ length (FunctionProto.input func))%nat
            ∧ (length (NodeProto.output node)
               ≤ length (FunctionProto.output func))%nat) as [Hin Hout].
    { apply Harity. eauto. }
    destruct (decide (domain_version node func = -1)) as [Hdv|Hdv].
    + split; [done|]. intros (_ & _ & Hne & _). done.
    + destruct (registry _ _ _) as [schema|].
      * split; [|done]. intros _. repeat split; done.
      * split; [done|]. intros (_ & _ & _ & [schema Hs]). done.
Qed.

(** X2: the nodes an expansion appends and its outcome are the same whatever
    the destination graph holds, so two expansions in a row append the nodes
    of the first, then those of the second. *)
Theorem expansion_ignores_destination registry address node func node_prefix :
  ∃ new_nodes outcome,
    (∀ g, FunctionExpandHelper registry address node func node_prefix g
          = (append_nodes new_nodes g, outcome))
    ∧ ∀ address' node' func' node_prefix' g,
        ∃ new_nodes',
          (FunctionExpandHelper registry address' node' func' node_prefix'
             (FunctionExpandHelper registry address node func node_prefix g).1).1
          = append_nodes (new_nodes ++ new_nodes') g.
Proof.
  assert (∀ address node func node_prefix,
            ∃ new_nodes outcome,
              ∀ g, FunctionExpandHelper registry address node func node_prefix g
                   = (append_nodes new_nodes g, outcome)) as Huniform.
  { clear. intros address node func node_prefix.
    destruct (bind_io (node_name address node func node_prefix) node func)
      as [e|io] eqn:Hio.
    { exists [], (inl e). intros g. rewrite FunctionExpandHelper_run. cbv zeta.
      by rewrite Hio, append_nodes_nil. }
    destruct (decide (domain_version node func = -1)) as [Hdv|Hdv].
    { eexists [], _. intros g. rewrite FunctionExpandHelper_run. cbv zeta.
      rewrite Hio, decide_True by done. by rewrite append_nodes_nil. }
    destruct (registry (NodeProto.op_type node) (domain_version node func)
                (NodeProto.domain node)) as [schema|] eqn:Hreg.
    - eexists _, _. intros g. rewrite FunctionExpandHelper_run. cbv zeta.
      rewrite Hio, decide_False by done. by rewrite Hreg.
    - eexists [], _. intros g. rewrite FunctionExpandHelper_run. cbv zeta.
      rewrite Hio, decide_False by done. by rewrite Hreg, append_nodes_nil. }
  destruct (Huniform address node func node_prefix) as (N & r & HN).
  exists N, r. split; [exact HN|].
  intros address' node' func' node_prefix' g.
  destruct (Huniform address' node' func' node_prefix') as (N' & r' & HN').
  exists N'. rewrite HN, HN'. simpl.
  unfold append_nodes. simpl. by rewrite <- app_assoc.
Qed.

(** X3: a successful expansion appends one node per body node, in body
    order; the copy keeps the operator type, domain, name and doc string of
    the body node and has as many inputs and outputs. *)
Theorem expansion_copies_body registry address node func node_prefix g :
  (FunctionExpandHelper registry address node func node_prefix g).2 = inr tt →
  ∃ new_nodes,
    (FunctionExpandHelper registry address node func node_prefix g).1
    = append_nodes new_nodes g
    ∧ length new_nodes = length (FunctionProto.node func)
    ∧ ∀ j function_node,
        FunctionProto.node func !! j = Some function_node →
        ∃ new_node,
          new_nodes !! j = Some new_node
          ∧ NodeProto.op_type new_node = NodeProto.op_type function_node
          ∧ NodeProto.domain new_node = NodeProto.domain function_node
          ∧ NodeProto.name new_node = NodeProto.name function_node
          ∧ NodeProto.doc_string new_node = NodeProto.doc_string function_node
          ∧ length (NodeProto.input new_node)
            = length (NodeProto.input function_node)
          ∧ length (NodeProto.output new_node)
            = length (NodeProto.output function_node).
Proof.
  rewrite FunctionExpandHelper_run. cbv zeta.
  destruct (bind_io _ node func) as [e|io]; [done|].
  destruct (decide (domain_version node func = -1)); [done|].
  destruct (registry _ _ _) as [schema|]; [|done].
  intros _. eexists. split; [reflexivity|].
  unfold expanded_body. split; [by rewrite length_fmap|].
  intros j function_node Hj. eexists.
  split; [by rewrite list_lookup_fmap, Hj|].
  simpl. by rewrite !length_fmap.
Qed.

Lemma expansion_copies_body_witness :
  ∃ new_nodes,
    (FunctionExpandHelper plain_registry "0x1" (call_to_F ["a"; "b"] ["c"])
       add_relu_function "" empty_graph).1
    = append_nodes new_nodes empty_graph
    ∧ length new_nodes = 2%nat.
Proof.
  destruct (expansion_copies_body plain_registry "0x1"
              (call_to_F ["a"; "b"] ["c"]) add_relu_function "" empty_graph
              eq_refl) as (new_nodes & Hrun & Hlen & _).
  exists new_nodes. split; [exact Hrun|exact Hlen].
Defined.

(** X4: the address of the call-site node reaches the result only when the
    node has no name and the caller gives no prefix: with a name, neither the
    address nor the prefix matters; without a name and with a non-empty
    prefix, the address does not. *)
Theorem address_used_only_unnamed_unprefixed registry node func g :
  (∀ n address1 address2 node_prefix1 node_prefix2,
     NodeProto.name node = Some n →
     FunctionExpandHelper registry address1 node func node_prefix1 g
     = FunctionExpandHelper registry address2 node func node_prefix2 g)
  ∧ ∀ address1 address2 node_prefix,
      NodeProto.name node = None → node_prefix ≠ "" →
      FunctionExpandHelper registry address1 node func node_prefix g
      = FunctionExpandHelper registry address2 node func node_prefix g.
Proof.
  split.
  - intros n address1 address2 node_prefix1 node_prefix2 Hname.
    rewrite !FunctionExpandHelper_run. cbv zeta.
    unfold node_name. by rewrite Hname.
  - intros address1 address2 node_prefix Hname Hprefix.
    rewrite !FunctionExpandHelper_run. cbv zeta.
    unfold node_name, uniq_prefix. by rewrite Hname, !decide_False.
Qed.

Lemma address_used_only_unnamed_unprefixed_witness :
  FunctionExpandHelper plain_registry "0x1" (call_to_F ["a"; "b"] ["c"])
    add_relu_function "" empty_graph
  = FunctionExpandHelper plain_registry "0x2" (call_to_F ["a"; "b"] ["c"])
      add_relu_function "p" empty_graph
  ∧ FunctionExpandHelper plain_registry "0x1"
      (NodeProto.mk ["a"; "b"] ["c"] None "F" "" [] "")
      add_relu_function "p" empty_graph
    = FunctionExpandHelper plain_registry "0x2"
        (NodeProto.mk ["a"; "b"] ["c"] None "F" "" [] "")
        add_relu_function "p" empty_graph.
Proof.
  split.
  - apply (proj1 (address_used_only_unnamed_unprefixed plain_registry
                    (call_to_F ["a"; "b"] ["c"]) add_relu_function empty_graph)
             "call" "0x1" "0x2" "" "p" eq_refl).
  - apply (proj2 (address_used_only_unnamed_unprefixed plain_registry
                    (NodeProto.mk ["a"; "b"] ["c"] None "F" "" [] "")
                    add_relu_function empty_graph)
             "0x1" "0x2" "p" eq_refl).
    discriminate.
Defined.

(** ** Attributes *)

Lemma node_attr_map_last attrs : ∀ (m : gmap string AttributeProto.t) before a after,
  attrs = before ++ a :: after →
  (∀ b, b ∈ after → AttributeProto.name b ≠ AttributeProto.name a) →
  (foldl (λ m attr, <[AttributeProto.name attr := attr]> m) m attrs)
    !! AttributeProto.name a = Some a.
Proof.
  intros m before a after -> Hafter. rewrite foldl_app. simpl.
  generalize (foldl (λ m attr, <[AttributeProto.name attr := attr]> m) m before).
  intros m'.
  assert (∀ l (m0 : gmap string AttributeProto.t),
            (∀ b, b ∈ l → AttributeProto.name b ≠ AttributeProto.name a) →
            (foldl (λ m attr, <[AttributeProto.name attr := attr]> m) m0 l)
              !! AttributeProto.name a = m0 !! AttributeProto.name a) as Hkeep.
  { induction l as [|b l IH]; intros m0 Hl; simpl; [done|].
    rewrite IH by (intros c Hc; apply Hl; by right).
    apply lookup_insert_ne. apply Hl. left. }
  rewrite Hkeep by done. apply lookup_insert_eq.
Qed.

(** X5: of the attributes the call site carries under one name, the last
    one is the entry of the resolved mapping, whatever default the schema
    declares for that name; a body attribute that refers to the name becomes
    that attribute under the body attribute's name. *)
Theorem call_site_attribute_wins node schema before a after attr :
  NodeProto.attribute node = before ++ a :: after →
  (∀ b, b ∈ after → AttributeProto.name b ≠ AttributeProto.name a) →
  AttributeProto.ref_attr_name attr = Some (AttributeProto.name a) →
  resolved_attr_map node schema !! AttributeProto.name a = Some a
  ∧ expand_attribute (resolved_attr_map node schema) attr
    = Some (AttributeProto.set_name (AttributeProto.name attr) a).
Proof.
  intros Hattrs Hafter Href.
  assert (resolved_attr_map node schema !! AttributeProto.name a = Some a)
    as Hmap.
  { rewrite resolved_attr_map_lookup. unfold node_attr_map.
    by rewrite (node_attr_map_last _ _ _ _ _ Hattrs Hafter). }
  split; [exact Hmap|]. unfold expand_attribute. by rewrite Href, Hmap.
Qed.

Lemma call_site_attribute_wins_witness :
  resolved_attr_map call_to_S_with_alpha scale_schema !! "alpha"
  = Some (int_attribute "alpha" 7)
  ∧ expand_attribute (resolved_attr_map call_to_S_with_alpha scale_schema)
      (reference_attribute "scale" "alpha")
    = Some (int_attribute "scale" 7).
Proof.
  apply (call_site_attribute_wins call_to_S_with_alpha scale_schema
           [int_attribute "alpha" 5] (int_attribute "alpha" 7) []
           (reference_attribute "scale" "alpha")).
  - reflexivity.
  - intros b Hb. by apply elem_of_nil in Hb.
  - reflexivity.
Defined.

(** X6: a body attribute leaves no attribute in the copy exactly when it is a
    reference whose target is neither the name of an attribute of the call
    site nor a name the schema declares. *)
Theorem attribute_dropped_iff node schema attr :
  expand_attribute (resolved_attr_map node schema) attr = None
  ↔ ∃ ref,
      AttributeProto.ref_attr_name attr = Some ref
      ∧ (ref ∉ AttributeProto.name <$> NodeProto.attribute node)
      ∧ OpSchema.attributes schema !! ref = None.
Proof.
  unfold expand_attribute.
  destruct (AttributeProto.ref_attr_name attr) as [ref|].
  - pose proof (resolved_attr_map_lookup node schema ref) as Hlk.
    pose proof (node_attr_map_None node ref) as Hnone.
    destruct (resolved_attr_map node schema !! ref) as [a|].
    + split; [done|]. intros (r & [= <-] & Hnode & Hschema).
      apply Hnone in Hnode. rewrite Hnode, Hschema in Hlk. done.
    + split; [|done]. intros _. exists ref. split; [done|].
      destruct (node_attr_map node !! ref); [done|].
      split; [by apply Hnone|].
      by destruct (OpSchema.attributes schema !! ref).
  - split; [done|]. intros (r & Hr & _). done.
Qed.

(** X7: a body node none of whose attributes is a reference keeps its
    attribute list as it is, whatever the call site and the schema give. *)
Theorem literal_attributes_kept nm io_names_map attr_map function_node :
  (∀ attr, attr ∈ NodeProto.attribute function_node →
           AttributeProto.ref_attr_name attr = None) →
  NodeProto.attribute (expand_node nm io_names_map attr_map function_node)
  = NodeProto.attribute function_node.
Proof.
  simpl. induction (NodeProto.attribute function_node) as [|a l IH];
    intros Hlit; csimpl; [done|].
  unfold expand_attribute at 1. rewrite (Hlit a) by left. csimpl.
  f_equal. apply IH. intros b Hb. apply Hlit. by right.
Qed.

Lemma literal_attributes_kept_witness :
  NodeProto.attribute
    (expand_node "call" ∅ (resolved_attr_map call_to_S scale_schema)
       (NodeProto.mk ["X"] ["Y"] None "Scale" "" [int_attribute "axis" 1] ""))
  = [int_attribute "axis" 1].
Proof.
  apply (literal_attributes_kept "call" ∅
           (resolved_attr_map call_to_S scale_schema)
           (NodeProto.mk ["X"] ["Y"] None "Scale" "" [int_attribute "axis" 1] "")).
  intros attr [->|Hin%elem_of_nil]%elem_of_cons; [reflexivity|done].
Defined.

(** ** Bindings *)

Lemma foldl_insert_binding_last l1 l2 (m : gmap string string) k v :
  k ∉ l2.*1 → foldl insert_binding m (l1 ++ (k, v) :: l2) !! k = Some v.
Proof.
  intros Hk. rewrite foldl_app. simpl.
  rewrite foldl_insert_binding_notin by done.
  unfold insert_binding. simpl. apply lookup_insert_eq.
Qed.

Lemma zip_split_at (formals actuals : list string) j f a :
  formals !! j = Some f → actuals !! j = Some a →
  zip formals actuals
  = take j (zip formals actuals) ++ (f, a) :: drop (S j) (zip formals actuals).
Proof.
  intros Hf Ha. symmetry. apply take_drop_middle.
  apply lookup_zip_with_Some. by exists f, a.
Qed.

Lemma elem_of_drop_zip (formals actuals : list string) j f a :
  (f, a) ∈ drop (S j) (zip formals actuals) →
  ∃ j', (j < j')%nat ∧ formals !! j' = Some f ∧ actuals !! j' = Some a.
Proof.
  intros [i Hi]%list_elem_of_lookup. rewrite lookup_drop in Hi.
  apply lookup_zip_with_Some in Hi as (f' & a' & [= <- <-] & Hf & Ha).
  exists (S j + i)%nat. split; [lia|done].
Qed.

(** X8: the output loop runs after the input loop and a later index after
    an earlier one, so a formal output name is bound to the actual output at
    the last index that declares it with a non-empty actual name, also when a
    formal input of the same name was bound. *)
Theorem last_output_binding_wins nm node func io_names_map j formal actual :
  bind_io nm node func = inr io_names_map →
  FunctionProto.output func !! j = Some formal →
  NodeProto.output node !! j = Some actual →
  actual ≠ "" →
  (∀ j' actual',
     (j < j')%nat →
     FunctionProto.output func !! j' = Some formal →
     NodeProto.output node !! j' = Some actual' → actual' = "") →
  io_names_map !! formal = Some actual
  ∧ rename_value nm io_names_map formal = actual.
Proof.
  intros Hio Hf Ha Hne Hlater.
  assert (io_names_map !! formal = Some actual) as Hlk.
  { destruct (proj2 (bind_io_arity nm node func)) as [Hli Hlo]; [eauto|].
    rewrite bind_io_ok in Hio by done. injection Hio as <-.
    rewrite (zip_split_at _ _ j formal actual Hf Ha), filter_app.
    rewrite filter_cons_True by done.
    apply foldl_insert_binding_last.
    intros [[f a] [-> [Hna Hin]%list_elem_of_filter]]%list_elem_of_fmap.
    apply elem_of_drop_zip in Hin as (j' & Hlt & Hf' & Ha'). simpl in *.
    apply Hna. by apply (Hlater j'). }
  split; [exact Hlk|]. unfold rename_value. by rewrite Hlk.
Qed.

Lemma last_output_binding_wins_witness :
  ({[ "X" := "d"; "Y" := "c" ]} : gmap string string) !! "X" = Some "d"
  ∧ rename_value "call" {[ "X" := "d"; "Y" := "c" ]} "X" = "d".
Proof.
  apply (last_output_binding_wins "call" call_with_both_outputs
           pass_through_function {[ "X" := "d"; "Y" := "c" ]} 1%nat "X" "d").
  - reflexivity.
  - reflexivity.
  - reflexivity.
  - discriminate.
  - intros [|[|j']] actual' Hlt; simpl; try lia; discriminate.
Defined.

(** X9: a formal input name is bound to the actual input at the last index
    among the call's inputs that declares it, provided no formal output of
    that name has a non-empty actual name. *)
Theorem input_bound_to_actual nm node func io_names_map i formal actual :
  bind_io nm node func = inr io_names_map →
  FunctionProto.input func !! i = Some formal →
  NodeProto.input node !! i = Some actual →
  (∀ i', (i < i')%nat → FunctionProto.input func !! i' = Some formal →
         NodeProto.input node !! i' = None) →
  (∀ j actual',
     FunctionProto.output func !! j = Some formal →
     NodeProto.output node !! j = Some actual' → actual' = "") →
  io_names_map !! formal = Some actual
  ∧ rename_value nm io_names_map formal = actual.
Proof.
  intros Hio Hf Ha Hlater Hout.
  assert (io_names_map !! formal = Some actual) as Hlk.
  { destruct (proj2 (bind_io_arity nm node func)) as [Hli Hlo]; [eauto|].
    rewrite bind_io_ok in Hio by done. injection Hio as <-.
    rewrite foldl_insert_binding_notin.
    - rewrite (zip_split_at _ _ i formal actual Hf Ha).
      apply foldl_insert_binding_last.
      intros [[f a] [-> Hin]]%list_elem_of_fmap.
      apply elem_of_drop_zip in Hin as (i' & Hlt & Hf' & Ha'). simpl in *.
      rewrite (Hlater i' Hlt Hf') in Ha'. done.
    - intros [[f a] [-> [Hna Hin]%list_elem_of_filter]]%list_elem_of_fmap.
      apply elem_of_zip_inv in Hin as (j & Hfj & Haj). simpl in *.
      apply Hna. by apply (Hout j). }
  split; [exact Hlk|]. unfold rename_value. by rewrite Hlk.
Qed.

Lemma input_bound_to_actual_witness :
  ({[ "X" := "a"; "Y" := "b"; "Z" := "c" ]} : gmap string string) !! "Y"
  = Some "b"
  ∧ rename_value "call" {[ "X" := "a"; "Y" := "b"; "Z" := "c" ]} "Y" = "b".
Proof.
  apply (input_bound_to_actual "call" (call_to_F ["a"; "b"] ["c"])
           add_relu_function {[ "X" := "a"; "Y" := "b"; "Z" := "c" ]}
           1%nat "Y" "b").
  - reflexivity.
  - reflexivity.
  - reflexivity.
  - intros [|[|i']] Hlt; simpl; try lia; done.
  - intros [|j] actual'; simpl; discriminate.
Defined.

Lemma prefix_append (s t : string) : String.prefix s (s +:+ t) = true.
Proof.
  induction s as [|a s IH]; simpl; [by destruct t|].
  by destruct (Ascii.ascii_dec a a).
Qed.

Lemma append_cancel (s x y : string) : s +:+ x = s +:+ y → x = y.
Proof.
  induction s as [|a s IH]; simpl; [done|]. intros [= Heq]. by apply IH.
Qed.

(** X10: when the actual names in the map are pairwise different and none of
    them starts with [Func_] followed by the resolved name of the call site,
    the renaming of body names is one-to-one: two different names of the body
    never become one name in the copy. *)
Theorem renaming_one_to_one nm (io_names_map : gmap string string) x y :
  NoDup (map_to_list io_names_map).*2 →
  map_Forall (λ _ actual, String.prefix ("Func_" +:+ nm) actual = false)
    io_names_map →
  rename_value nm io_names_map x = rename_value nm io_names_map y →
  x = y.
Proof.
  intros Hinj Hfree. unfold rename_value, InteralTensorNameGenerator.
  destruct (io_names_map !! x) as [a|] eqn:Hx,
           (io_names_map !! y) as [b|] eqn:Hy.
  - intros ->. apply elem_of_map_to_list in Hx, Hy.
    apply list_elem_of_lookup in Hx as [i Hi], Hy as [k Hk].
    assert (i = k) as ->.
    { apply (NoDup_lookup _ i k b Hinj);
        by rewrite list_lookup_fmap, ?Hi, ?Hk. }
    congruence.
  - intros ->. apply Hfree in Hx. by rewrite prefix_append in Hx.
  - intros <-. apply Hfree in Hy. by rewrite prefix_append in Hy.
  - apply append_cancel.
Qed.

Lemma renaming_one_to_one_witness :
  NoDup (map_to_list ({[ "X" := "a"; "Y" := "b" ]} : gmap string string)).*2
  ∧ rename_value "call" {[ "X" := "a"; "Y" := "b" ]} "T"
    = rename_value "call" {[ "X" := "a"; "Y" := "b" ]} "T"
  ∧ "T" = "T".
Proof.
  assert (NoDup
            (map_to_list ({[ "X" := "a"; "Y" := "b" ]} : gmap string string)).*2)
    as Hinj.
  { apply (bool_decide_unpack _). vm_compute. exact I. }
  split; [exact Hinj|]. split; [reflexivity|].
  apply (renaming_one_to_one "call" {[ "X" := "a"; "Y" := "b" ]} "T" "T" Hinj).
  - apply (bool_decide_unpack _). vm_compute. exact I.
  - reflexivity.
Defined.

(** * FunctionBodyHelper *)

Lemma foldl_add_input l : ∀ n,
  foldl (λ n i, NodeProtoOps.add_input i n) n l
  = NodeProto.mk (NodeProto.input n ++ l) (NodeProto.output n) (NodeProto.name n)
      (NodeProto.op_type n) (NodeProto.domain n) (NodeProto.attribute n)
      (NodeProto.doc_string n).
Proof.
  induction l as [|x l IH]; intros n; simpl.
  - rewrite app_nil_r. by destruct n.
  - rewrite IH. simpl. by rewrite <- app_assoc.
Qed.

Lemma foldl_add_output l : ∀ n,
  foldl (λ n o, NodeProtoOps.add_output o n) n l
  = NodeProto.mk (NodeProto.input n) (NodeProto.output n ++ l) (NodeProto.name n)
      (NodeProto.op_type n) (NodeProto.domain n) (NodeProto.attribute n)
      (NodeProto.doc_string n).
Proof.
  induction l as [|x l IH]; intros n; simpl.
  - rewrite app_nil_r. by destruct n.
  - rewrite IH. simpl. by rewrite <- app_assoc.
Qed.

Lemma foldl_add_attribute l : ∀ n,
  foldl (λ n attr,
           NodeProtoOps.add_attribute (AttributeProtoWrapper.proto attr) n) n l
  = NodeProto.mk (NodeProto.input n) (NodeProto.output n) (NodeProto.name n)
      (NodeProto.op_type n) (NodeProto.domain n)
      (NodeProto.attribute n ++ (AttributeProtoWrapper.proto <$> l))
      (NodeProto.doc_string n).
Proof.
  induction l as [|x l IH]; intros n; simpl.
  - rewrite app_nil_r. by destruct n.
  - rewrite IH. simpl. by rewrite <- app_assoc.
Qed.

Lemma fill_node_default node :
  FunctionBodyHelper.fill_node node NodeProtoOps.default = node_of_def node.
Proof.
  unfold FunctionBodyHelper.fill_node. cbv zeta.
  by rewrite foldl_add_attribute, foldl_add_output, foldl_add_input.
Qed.

Lemma BuildNodes_loop node_defs : ∀ m k,
  (k + m = length node_defs)%nat →
  foldl (λ nodes i,
           match node_defs !! i, nodes !! i with
           | Some node, Some n =>
               <[i := FunctionBodyHelper.fill_node node n]> nodes
           | _, _ => nodes
           end)
        ((node_of_def <$> take k node_defs) ++ replicate m NodeProtoOps.default)
        (seq k m)
  = node_of_def <$> node_defs.
Proof.
  induction m as [|m IH]; intros k Hk; simpl.
  - rewrite app_nil_r, take_ge by lia. done.
  - destruct (lookup_lt_is_Some_2 node_defs k) as [node Hnode]; [lia|].
    assert (length (node_of_def <$> take k node_defs) = k) as Hlen.
    { rewrite length_fmap, length_take. lia. }
    rewrite Hnode, lookup_app_r by lia.
    rewrite Hlen, Nat.sub_diag. simpl.
    rewrite insert_app_r_alt by lia. rewrite Hlen, Nat.sub_diag. simpl.
    rewrite fill_node_default.
    rewrite <- (IH (S k)) by lia.
    rewrite (take_S_r _ _ _ Hnode), fmap_app, <- app_assoc. done.
Qed.

Lemma BuildNodes_map node_defs :
  FunctionBodyHelper.BuildNodes node_defs = node_of_def <$> node_defs.
Proof.
  unfold FunctionBodyHelper.BuildNodes.
  by rewrite <- (BuildNodes_loop node_defs (length node_defs) 0).
Qed.

(** X11: [BuildNodes] returns one node per definition, in the order of the
    definitions: the node has the operator type, domain, inputs, outputs and
    attribute messages of its definition, and no name. *)
Theorem BuildNodes_per_definition node_defs :
  FunctionBodyHelper.BuildNodes node_defs = node_of_def <$> node_defs
  ∧ length (FunctionBodyHelper.BuildNodes node_defs) = length node_defs
  ∧ ∀ i node,
      node_defs !! i = Some node →
      FunctionBodyHelper.BuildNodes node_defs !! i
      = Some (NodeProto.mk (NodeDef.inputs node) (NodeDef.outputs node) None
                (NodeDef.op_type node) (NodeDef.domain node)
                (AttributeProtoWrapper.proto <$> NodeDef.attributes node) "").
Proof.
  pose proof (BuildNodes_map node_defs) as Heq.
  split; [exact Heq|]. rewrite Heq. split; [by rewrite length_fmap|].
  intros i node Hi. by rewrite list_lookup_fmap, Hi.
Qed.

(** X12: the overload that builds into a function appends, after the nodes
    the function has, the nodes the vector overload returns, and changes no
    other field. *)
Theorem BuildNodes_overloads_agree functionProto node_defs :
  FunctionBodyHelper.BuildNodes_function functionProto node_defs
  = append_function_nodes (FunctionBodyHelper.BuildNodes node_defs) functionProto.
Proof.
  rewrite BuildNodes_map.
  unfold FunctionBodyHelper.BuildNodes_function. revert functionProto.
  induction node_defs as [|node rest IH]; intros functionProto; simpl.
  - by rewrite append_function_nodes_nil.
  - by rewrite IH, fill_node_default, append_function_nodes_add_node.
Qed.

Lemma foldl_add_opset_import relied_opsets : ∀ f,
  foldl (λ fp relied_opset, FunctionBodyHelper.add_opset_import relied_opset fp)
        f relied_opsets
  = FunctionProto.mk (FunctionProto.name f) (FunctionProto.input f)
      (FunctionProto.output f) (FunctionProto.attribute f) (FunctionProto.node f)
      (FunctionProto.opset_import f ++ relied_opsets) (FunctionProto.domain f).
Proof.
  induction relied_opsets as [|o rest IH]; intros f; simpl.
  - rewrite app_nil_r. by destruct f.
  - rewrite IH. simpl. by rewrite <- app_assoc.
Qed.

(** X13: [BuildFunctionProto] reports success whatever it is given; the
    function it hands to the schema's [BuildFunction] is the one it received
    with one node per definition after its nodes and the relied-upon opsets,
    in their order, after its opset imports, every other field untouched. *)
Theorem BuildFunctionProto_result BuildFunction functionProto schema node_defs
    relied_opsets :
  FunctionBodyHelper.BuildFunctionProto BuildFunction functionProto schema
    node_defs relied_opsets
  = (true,
     BuildFunction schema
       (FunctionProto.mk (FunctionProto.name functionProto)
          (FunctionProto.input functionProto)
          (FunctionProto.output functionProto)
          (FunctionProto.attribute functionProto)
          (FunctionProto.node functionProto ++ (node_of_def <$> node_defs))
          (FunctionProto.opset_import functionProto ++ relied_opsets)
          (FunctionProto.domain functionProto))).
Proof.
  unfold FunctionBodyHelper.BuildFunctionProto. cbv zeta.
  rewrite foldl_add_opset_import.
  assert (FunctionBodyHelper.BuildNodes_function functionProto node_defs
          = append_function_nodes (node_of_def <$> node_defs) functionProto)
    as ->.
  { unfold FunctionBodyHelper.BuildNodes_function. revert functionProto.
    induction node_defs as [|node rest IH]; intros functionProto; simpl.
    - by rewrite append_function_nodes_nil.
    - by rewrite IH, fill_node_default, append_function_nodes_add_node. }
  done.
Qed.

(** X14: a definition whose body was built by [BuildNodes] expands, when the
    expansion succeeds, into nodes whose operator types and domains are those
    of the node definitions, in their order. *)
Theorem built_body_expands registry address node func node_prefix g node_defs :
  FunctionProto.node func = FunctionBodyHelper.BuildNodes node_defs →
  (FunctionExpandHelper registry address node func node_prefix g).2 = inr tt →
  ∃ new_nodes,
    (FunctionExpandHelper registry address node func node_prefix g).1
    = append_nodes new_nodes g
    ∧ NodeProto.op_type <$> new_nodes = NodeDef.op_type <$> node_defs
    ∧ NodeProto.domain <$> new_nodes = NodeDef.domain <$> node_defs.
Proof.
  intros Hbody. rewrite FunctionExpandHelper_run. cbv zeta.
  destruct (bind_io _ node func) as [e|io]; [done|].
  destruct (decide (domain_version node func = -1)); [done|].
  destruct (registry _ _ _) as [schema|]; [|done].
  intros _. eexists. split; [reflexivity|].
  unfold expanded_body. rewrite Hbody, BuildNodes_map.
  rewrite <- !list_fmap_compose. split; by apply list_fmap_ext.
Qed.

Lemma built_body_expands_witness :
  ∃ new_nodes,
    (FunctionExpandHelper plain_registry "0x1" (call_to_F ["a"; "b"] ["c"])
       built_add_relu_function "" empty_graph).1
    = append_nodes new_nodes empty_graph
    ∧ NodeProto.op_type <$> new_nodes = ["Add"; "Relu"]
    ∧ NodeProto.domain <$> new_nodes = [""; ""].
Proof.
  apply (built_body_expands plain_registry "0x1" (call_to_F ["a"; "b"] ["c"])
           built_add_relu_function "" empty_graph [add_def; relu_def]).
  - reflexivity.
  - reflexivity.
Defined.

(** * The graph splicer, further *)

(** X15: the binding loops pair the formal names with the actual names by
    position and stop at the shorter list: surplus formals stay unbound,
    surplus actuals are passed over, both without an error, and with no
    actual names the renamer is left as it was. *)
Theorem bind_formals_pairs {R : Type} `{Renamer R}
    (formals : list ValueInfoProto.t) (actuals : list string) (renamer : R) :
  bind_formals formals actuals renamer
  = foldl (λ r p, BindName p.1 p.2 r) renamer
      (zip (ValueInfoProto.name <$> formals) actuals)
  ∧ length (zip (ValueInfoProto.name <$> formals) actuals)
    = (length formals `min` length actuals)%nat
  ∧ bind_formals formals [] renamer = renamer.
Proof.
  split; [|split].
  - revert actuals renamer.
    induction formals as [|f formals IH]; intros actuals renamer; [done|].
    destruct actuals as [|a actuals]; simpl.
    + rewrite IH. by destruct (ValueInfoProto.name <$> formals).
    + by rewrite IH.
  - by rewrite length_zip_with, length_fmap.
  - induction formals as [|f formals IH]; simpl; done.
Qed.


(** * The axes adapter, further *)

(** X17: for an input no Constant produces, the axes are the int64 list of
    the first initializer that carries the name of the input, whatever later
    initializers of that name hold and whether or not its values sit in raw
    data; the raw data of an initializer are never read. *)
Theorem first_initializer_gives_axes size_from_dim axes before initializer
    after uniqueName :
  Tensor.name initializer = uniqueName →
  (∀ earlier, earlier ∈ before → Tensor.name earlier ≠ uniqueName) →
  adapt_axes size_from_dim axes (before ++ initializer :: after)
    (kOther uniqueName)
  = axes_set (Tensor.int64s initializer).
Proof.
  intros Hname Hbefore. simpl.
  assert (axes_of_initializer uniqueName (before ++ initializer :: after)
          = Some (Tensor.int64s initializer)) as ->; [|done].
  induction before as [|t before IH]; simpl.
  - by rewrite decide_True.
  - rewrite decide_False by (apply Hbefore; left).
    apply IH. intros earlier Hin. apply Hbefore. by right.
Qed.

Lemma first_initializer_gives_axes_witness :
  adapt_axes size_from_dim_product None
    [Tensor.mk "data" [1] [9] []; raw_initializer; typed_tensor]
    (kOther "axes")
  = axes_set [].
Proof.
  apply (first_initializer_gives_axes size_from_dim_product None
           [Tensor.mk "data" [1] [9] []] raw_initializer [typed_tensor] "axes").
  - reflexivity.
  - intros earlier [->|Hin%elem_of_nil]%elem_of_cons; [discriminate|done].
Defined.

(** X18: for an input no Constant produces and no initializer is named
    after, the adapter fails its closing assertion when the node has no axes
    attribute, and leaves the attribute as it is when the node has one. *)
Theorem no_initializer_no_axes size_from_dim axes initializers uniqueName :
  (∀ initializer, initializer ∈ initializers →
                  Tensor.name initializer ≠ uniqueName) →
  adapt_axes size_from_dim axes initializers (kOther uniqueName)
  = match axes with
    | Some present => axes_set present
    | None => assert_error "No initializer or constant input to node found"
    end.
Proof.
  intros Hnone. simpl.
  assert (axes_of_initializer uniqueName initializers = None) as ->; [|done].
  induction initializers as [|t rest IH]; simpl; [done|].
  rewrite decide_False by (apply Hnone; left).
  apply IH. intros initializer Hin. apply Hnone. by right.
Qed.

Lemma no_initializer_no_axes_witness :
  adapt_axes size_from_dim_product None [typed_tensor] (kOther "shape")
  = assert_error "No initializer or constant input to node found".
Proof.
  apply (no_initializer_no_axes size_from_dim_product None [typed_tensor]
           "shape").
  intros initializer [->|Hin%elem_of_nil]%elem_of_cons; [discriminate|done].
Defined.

Lemma int64_of_bytes_range bs :
  (length bs ≤ 8)%nat → (- 2 ^ 63 ≤ int64_of_bytes bs < 2 ^ 63)%Z.
Proof.
  intros Hlen. unfold int64_of_bytes.
  assert (0 ≤ foldr (λ b acc, Z.of_N (Byte.to_N b) + 256 * acc) 0 bs
          < 256 ^ Z.of_nat (length bs))%Z as Hu.
  { clear Hlen. induction bs as [|b bs IH]; simpl length; simpl foldr; [lia|].
    pose proof (Byte.to_N_bounded b) as Hb.
    rewrite Nat2Z.inj_succ, Z.pow_succ_r by lia. lia. }
  assert (256 ^ Z.of_nat (length bs) ≤ 256 ^ 8)%Z as Hpow.
  { apply Z.pow_le_mono_r; lia. }
  change (256 ^ 8)%Z with (2 ^ 64)%Z in Hpow.
  destruct (decide _); lia.
Qed.

Lemma reinterpret_int64_range n : ∀ bs,
  length (reinterpret_int64 n bs) = n
  ∧ Forall (λ x, - 2 ^ 63 ≤ x < 2 ^ 63)%Z (reinterpret_int64 n bs).
Proof.
  induction n as [|n IH]; intros bs; simpl; [by split|].
  destruct (IH (drop 8 bs)) as [Hlen Hall]. split; [by rewrite Hlen|].
  constructor; [|done]. apply int64_of_bytes_range.
  rewrite length_take. lia.
Qed.

(** X19: when the axes of a Constant input are read from its raw data, there
    are [size_from_dim(0)] of them and each is a two's complement 64-bit
    value. *)
Theorem raw_axes_are_int64 size_from_dim axes initializers value result :
  Tensor.int64s value = [] →
  adapt_axes size_from_dim axes initializers (kConstant value)
  = axes_set result →
  Z.of_nat (length result) = size_from_dim value 0
  ∧ Forall (λ x, - 2 ^ 63 ≤ x < 2 ^ 63)%Z result.
Proof.
  intros Hint. simpl. unfold axes_of_constant.
  rewrite bool_decide_eq_true_2 by done.
  destruct (raw_data_ok _); [|done].
  destruct (bool_decide _) eqn:Hn; [|done].
  apply bool_decide_eq_true_1 in Hn. intros [= <-].
  destruct (reinterpret_int64_range (Z.to_nat (size_from_dim value 0))
              (Tensor.raw value)) as [Hlen Hall].
  split; [rewrite Hlen; lia|done].
Qed.

Lemma raw_axes_are_int64_witness :
  Z.of_nat (length [1]) = size_from_dim_product one_element_tensor 0
  ∧ Forall (λ x, - 2 ^ 63 ≤ x < 2 ^ 63)%Z [1].
Proof.
  apply (raw_axes_are_int64 size_from_dim_product None [] one_element_tensor [1]).
  - reflexivity.
  - reflexivity.
Defined.
